(** * cocos-requet: a shallow embedding of the request pipeline

    The development follows the layout of the repository:
    - [Js]      the part of the JavaScript platform the code relies on
                (strings, values, JSON, promises settling);
    - [Helper]  src/src/helper.ts;
    - [Client]  src/src/client.ts;
    - [Draft]   the duplicated Client of src/unnamed/part_000.

    Strings are sequences of code units; the embedding covers the code units
    0..255 (one [ascii] each), which is enough for URLs, header names and
    the JSON texts the pipeline produces. *)

From Stdlib Require Import ZArith List Ascii Bool Lia.
From stdpp Require Import gmap strings.

Local Open Scope Z_scope.
#[local] Set Warnings "-register-all".

(* ===================================================================== *)
(** * The JavaScript platform *)
(* ===================================================================== *)

Module Js.

(** ** Code units *)

Definition code (c : ascii) : N := N_of_ascii c.

Definition in_range (lo hi : N) (c : ascii) : bool :=
  ((lo <=? code c) && (code c <=? hi))%N.

Definition is_upper (c : ascii) : bool := in_range 65 90 c.
Definition is_lower (c : ascii) : bool := in_range 97 122 c.
Definition is_alpha (c : ascii) : bool := is_upper c || is_lower c.
Definition is_digit (c : ascii) : bool := in_range 48 57 c.

(** [\w] of a regular expression: letters, digits and the underscore. *)
Definition is_word (c : ascii) : bool :=
  is_alpha c || is_digit c || (code c =? 95)%N.

(** WhiteSpace and LineTerminator code units below 256: TAB, LF, VT, FF, CR,
    SP and NBSP. *)
Definition is_space (c : ascii) : bool :=
  in_range 9 13 c || (code c =? 32)%N || (code c =? 160)%N.

(** [String.prototype.toLowerCase] on one code unit: A-Z and the Latin-1
    capitals (all of C0..DE but the multiplication sign D7). *)
Definition lower_char (c : ascii) : ascii :=
  if is_upper c || (in_range 192 222 c && negb (code c =? 215)%N)
  then ascii_of_N (code c + 32) else c.

(** [toUpperCase] on one code unit. The code applies it to HTTP verbs only,
    so the ASCII letters are what matters. *)
Definition upper_char (c : ascii) : ascii :=
  if is_lower c then ascii_of_N (code c - 32) else c.

(** ** Strings *)

Fixpoint smap (f : ascii -> ascii) (s : string) : string :=
  match s with
  | EmptyString => EmptyString
  | String c r => String (f c) (smap f r)
  end.

Definition toLowerCase : string -> string := smap lower_char.
Definition toUpperCase : string -> string := smap upper_char.

Fixpoint slen (s : string) : nat :=
  match s with
  | EmptyString => O
  | String _ r => S (slen r)
  end.

Fixpoint sdrop (n : nat) (s : string) : string :=
  match n, s with
  | O, _ => s
  | S _, EmptyString => EmptyString
  | S k, String _ r => sdrop k r
  end.

Fixpoint stake (n : nat) (s : string) : string :=
  match n, s with
  | O, _ => EmptyString
  | S _, EmptyString => EmptyString
  | S k, String c r => String c (stake k r)
  end.

Fixpoint srev_onto (s acc : string) : string :=
  match s with
  | EmptyString => acc
  | String c r => srev_onto r (String c acc)
  end.

Definition srev (s : string) : string := srev_onto s EmptyString.

(** [p] is a prefix of [s]; with [ci] the comparison ignores the case of
    ASCII letters, as the [i] flag of a regular expression does. *)
Fixpoint starts_with_gen (ci : bool) (p s : string) : bool :=
  match p, s with
  | EmptyString, _ => true
  | String _ _, EmptyString => false
  | String a p', String b s' =>
      (if ci then (code (lower_char a) =? code (lower_char b))%N
       else (code a =? code b)%N)
      && starts_with_gen ci p' s'
  end.

Definition starts_with : string -> string -> bool := starts_with_gen false.

Definition seqb (a b : string) : bool := bool_decide (a = b).

(** [s.indexOf(p)]: the first position where [p] occurs, or -1. *)
Fixpoint indexOf_from (p s : string) (i : Z) : Z :=
  if starts_with p s then i
  else match s with
       | EmptyString => -1
       | String _ r => indexOf_from p r (i + 1)
       end.

Definition indexOf (s p : string) : Z := indexOf_from p s 0.

(** [s.slice(a, b)] with the clamping of negative and oversized indices. *)
Definition clamp_index (len i : Z) : Z :=
  if i <? 0 then Z.max (len + i) 0 else Z.min i len.

Definition slice (s : string) (a b : Z) : string :=
  let len := Z.of_nat (slen s) in
  let from := clamp_index len a in
  let to := clamp_index len b in
  stake (Z.to_nat (to - from)) (sdrop (Z.to_nat from) s).

Definition slice_from (s : string) (a : Z) : string :=
  slice s a (Z.of_nat (slen s)).

(** [s.replace(/p/g, r)] for a literal pattern [p] (never empty in the
    code), scanning left to right; [ci] is the [i] flag. *)
Fixpoint replace_all (ci : bool) (p r s : string) (fuel : nat) : string :=
  match fuel with
  | O => s
  | S k =>
      match s with
      | EmptyString => EmptyString
      | String c t =>
          if starts_with_gen ci p s
          then r +:+ replace_all ci p r (sdrop (slen p) s) k
          else String c (replace_all ci p r t k)
      end
  end.

Definition replace_g (ci : bool) (p r s : string) : string :=
  replace_all ci p r s (S (slen s)).

(** Dropping a leading run of code units, and a trailing one. *)
Fixpoint drop_while (f : ascii -> bool) (s : string) : string :=
  match s with
  | EmptyString => EmptyString
  | String c r => if f c then drop_while f r else s
  end.

Definition drop_while_end (f : ascii -> bool) (s : string) : string :=
  srev (drop_while f (srev s)).

(** [String.prototype.trim]. *)
Definition js_trim (s : string) : string :=
  drop_while_end is_space (drop_while is_space s).

(** [s.split(sep)] for a one-unit separator. *)
Fixpoint split_on (sep : ascii) (s : string) (cur : string) : list string :=
  match s with
  | EmptyString => [srev cur]
  | String c r =>
      if (code c =? code sep)%N then srev cur :: split_on sep r EmptyString
      else split_on sep r (String c cur)
  end.

Definition split (s : string) (sep : ascii) : list string :=
  split_on sep s EmptyString.

(** [parts.join(sep)]. *)
Fixpoint join (sep : string) (parts : list string) : string :=
  match parts with
  | [] => EmptyString
  | [p] => p
  | p :: rest => p +:+ sep +:+ join sep rest
  end.

(** ** Values

    The values a caller can put in [params] and [data]: the JSON-like part
    of the language plus [Date] (carried as its ISO-8601 text, what
    [toISOString] returns). Numbers are the integers, those a double
    holds exactly and prints in full; object fields are in own-property
    order, the order [Object.entries] reports. *)

Inductive value : Type :=
  | VUndefined
  | VNull
  | VBool (b : bool)
  | VNum (n : Z)
  | VStr (s : string)
  | VDate (iso : string)
  | VArr (xs : list value)
  | VObj (fields : list (string * value)).

(** Truthiness, as [!v], [v || d] and [c ? a : b] see it. *)
Definition truthy (v : value) : bool :=
  match v with
  | VUndefined | VNull => false
  | VBool b => b
  | VNum n => negb (n =? 0)
  | VStr s => negb (seqb s EmptyString)
  | VDate _ | VArr _ | VObj _ => true
  end.

(** [v == null]. *)
Definition is_nullish (v : value) : bool :=
  match v with VUndefined | VNull => true | _ => false end.

(** Decimal text of an integer. *)
Definition digit_char (d : Z) : ascii := ascii_of_N (Z.to_N (48 + d)).

Fixpoint digits_onto (fuel : nat) (n : Z) (acc : string) : string :=
  match fuel with
  | O => acc
  | S k =>
      let acc' := String (digit_char (n mod 10)) acc in
      if n <? 10 then acc' else digits_onto k (n / 10) acc'
  end.

Definition Z_to_string (n : Z) : string :=
  let m := Z.abs n in
  let body := digits_onto (S (Z.to_nat (Z.log2 m))) m EmptyString in
  if n <? 0 then String "-" body else body.

(** Hexadecimal digits, upper case ([encodeURIComponent]) or lower case
    ([JSON.stringify]). *)
Definition hex_digit (upper : bool) (d : N) : ascii :=
  if (d <? 10)%N then ascii_of_N (48 + d)
  else ascii_of_N ((if upper then 55 else 87) + d).

Definition hex2 (upper : bool) (n : N) : string :=
  String (hex_digit upper (n / 16)) (String (hex_digit upper (n mod 16)) EmptyString).

(** ** JSON.stringify *)

(** The double quote, as a one-unit string. *)
Definition dq : string := String (ascii_of_N 34) EmptyString.

Definition quote_char (c : ascii) : string :=
  let n := code c in
  if (n =? 34)%N then String "\" dq
  else if (n =? 92)%N then "\\"
  else if (n =? 8)%N then "\b"
  else if (n =? 9)%N then "\t"
  else if (n =? 10)%N then "\n"
  else if (n =? 12)%N then "\f"
  else if (n =? 13)%N then "\r"
  else if (n <? 32)%N then "\u00" +:+ hex2 false n
  else String c EmptyString.

Fixpoint quote_body (s : string) : string :=
  match s with
  | EmptyString => EmptyString
  | String c r => quote_char c +:+ quote_body r
  end.

Definition quote (s : string) : string := dq +:+ quote_body s +:+ dq.

(** [None] is the [undefined] that [JSON.stringify] returns for
    [undefined]; inside an array it is written [null], inside an object the
    field is left out. *)
Fixpoint JSON_stringify (v : value) : option string :=
  match v with
  | VUndefined => None
  | VNull => Some "null"
  | VBool true => Some "true"
  | VBool false => Some "false"
  | VNum n => Some (Z_to_string n)
  | VStr s => Some (quote s)
  | VDate iso => Some (quote iso)
  | VArr xs =>
      let item x := match JSON_stringify x with Some t => t | None => "null" end in
      Some ("[" +:+ join "," (List.map item xs) +:+ "]")
  | VObj fields =>
      let field kv :=
        match JSON_stringify (snd kv) with
        | Some t => [quote (fst kv) +:+ ":" +:+ t]
        | None => []
        end in
      Some ("{" +:+ join "," (List.concat (List.map field fields)) +:+ "}")
  end.

(** [String(v)], the conversion [encodeURIComponent] and [setRequestHeader]
    apply to their argument. A [Date] prints its local time, which the
    embedding does not carry: the code converts dates with [toISOString]
    before it converts them to a string, and that text is what stands
    here. *)
Fixpoint to_String (v : value) : string :=
  match v with
  | VUndefined => "undefined"
  | VNull => "null"
  | VBool true => "true"
  | VBool false => "false"
  | VNum n => Z_to_string n
  | VStr s => s
  | VDate iso => iso
  | VArr xs =>
      let item x := if is_nullish x then EmptyString else to_String x in
      join "," (List.map item xs)
  | VObj _ => "[object Object]"
  end.

(** ** Errors, completions and settled promises *)

Record error : Type := Error { name : string; message : string }.

(** What a call does: return or throw. *)
Inductive completion (A : Type) : Type :=
  | Return (a : A)
  | Throw (e : error).
Arguments Return {A} a.
Arguments Throw {A} e.

(** What a promise settles to. *)
Inductive settled (A : Type) : Type :=
  | Fulfilled (a : A)
  | Rejected (e : error).
Arguments Fulfilled {A} a.
Arguments Rejected {A} e.

(** A callback that throws rejects the promise [then] returned. *)
Definition settle {A} (c : completion A) : settled A :=
  match c with
  | Return a => Fulfilled a
  | Throw e => Rejected e
  end.

(** [p.then(onFulfilled, onRejected)] once [p] has settled: exactly one of
    the two callbacks runs; what it returns (a value, a promise, a throw) is
    what the new promise settles to. *)
Definition then_ {A B} (p : settled A)
    (onFulfilled : A -> settled B) (onRejected : error -> settled B) : settled B :=
  match p with
  | Fulfilled a => onFulfilled a
  | Rejected e => onRejected e
  end.

(** ** encodeURIComponent

    Letters, digits and [- _ . ! ~ * ' ( )] stay; every other code unit is
    written as the percent-escaped bytes of its UTF-8 encoding (one byte
    below 128, two bytes from 128 to 255), with upper-case hex digits. *)

Definition is_unreserved (c : ascii) : bool :=
  is_alpha c || is_digit c ||
  existsb (fun n => (code c =? n)%N) [45; 95; 46; 33; 126; 42; 39; 40; 41]%N.

Definition percent (n : N) : string := String "%" (hex2 true n).

Definition encode_char (c : ascii) : string :=
  let n := code c in
  if is_unreserved c then String c EmptyString
  else if (n <? 128)%N then percent n
  else percent (192 + n / 64) +:+ percent (128 + n mod 64).

Fixpoint encodeURIComponent (s : string) : string :=
  match s with
  | EmptyString => EmptyString
  | String c r => encode_char c +:+ encodeURIComponent r
  end.

End Js.

(* ===================================================================== *)
(** * A reference JSON.parse *)
(* ===================================================================== *)

(** The pipeline takes the platform's [JSON.parse] as a parameter. This
    parser instantiates it where a run is evaluated: it accepts JSON texts
    whose numbers are integers and whose strings hold code units below 256,
    the values of the embedding, and throws a [SyntaxError] otherwise. *)
Module JsonLite.
Import Js.

Definition is_ws (c : ascii) : bool :=
  existsb (fun n => (code c =? n)%N) [32; 9; 10; 13]%N.

Definition hex_val (c : ascii) : option N :=
  let n := code c in
  if is_digit c then Some (n - 48)%N
  else if in_range 65 70 c then Some (n - 55)%N
  else if in_range 97 102 c then Some (n - 87)%N
  else None.

Definition unescape (c : ascii) : option ascii :=
  let n := code c in
  if existsb (fun m => (n =? m)%N) [34; 92; 47]%N then Some c
  else if (n =? 98)%N then Some (ascii_of_N 8)
  else if (n =? 102)%N then Some (ascii_of_N 12)
  else if (n =? 110)%N then Some (ascii_of_N 10)
  else if (n =? 114)%N then Some (ascii_of_N 13)
  else if (n =? 116)%N then Some (ascii_of_N 9)
  else None.

(** The rest of a string literal, after its opening quote: the text and
    what follows the closing quote. *)
Fixpoint parse_string (s acc : string) : option (string * string) :=
  match s with
  | EmptyString => None
  | String c r =>
      if (code c =? 34)%N then Some (srev acc, r)
      else if (code c <? 32)%N then None
      else if (code c =? 92)%N then
        match r with
        | String e r' =>
            if (code e =? 117)%N then
              match r' with
              | String a (String b (String x (String y r'')))  =>
                  match hex_val a, hex_val b, hex_val x, hex_val y with
                  | Some 0%N, Some 0%N, Some h, Some l =>
                      parse_string r'' (String (ascii_of_N (16 * h + l)) acc)
                  | _, _, _, _ => None
                  end
              | _ => None
              end
            else match unescape e with
                 | Some u => parse_string r' (String u acc)
                 | None => None
                 end
        | EmptyString => None
        end
      else parse_string r (String c acc)
  end.

Fixpoint parse_digits (s : string) (acc : Z) : Z * string :=
  match s with
  | String c r =>
      if is_digit c then parse_digits r (10 * acc + Z.of_N (code c - 48)) else (acc, s)
  | EmptyString => (acc, s)
  end.

(** An integer literal: no leading zero, no fraction, no exponent. *)
Definition parse_int (s : string) : option (Z * string) :=
  let '(neg, body) :=
    match s with
    | String c r => if (code c =? 45)%N then (true, r) else (false, s)
    | EmptyString => (false, s)
    end in
  match body with
  | String d r =>
      if negb (is_digit d) then None
      else
        let '(n, rest) := parse_digits body 0 in
        let leading_zero :=
          (code d =? 48)%N && match r with String e _ => is_digit e | _ => false end in
        let more :=
          match rest with
          | String e _ => existsb (fun m => (code e =? m)%N) [46; 101; 69]%N
          | EmptyString => false
          end in
        if leading_zero || more then None
        else Some (if neg then - n else n, rest)
  | EmptyString => None
  end.

Inductive mode : Type :=
  | MValue
  | MElements (acc : list value)
  | MMembers (acc : list (string * value)).

(** A later duplicate of a key overwrites the value of the first. *)
Fixpoint set_field (fs : list (string * value)) (k : string) (v : value) :=
  match fs with
  | [] => [(k, v)]
  | (k', v') :: rest =>
      if seqb k' k then (k', v) :: rest else (k', v') :: set_field rest k v
  end.

Fixpoint parse (fuel : nat) (m : mode) (text : string) : option (value * string) :=
  match fuel with
  | O => None
  | S k =>
      let s := drop_while is_ws text in
      match m with
      | MValue =>
          if starts_with "null" s then Some (VNull, sdrop 4 s)
          else if starts_with "true" s then Some (VBool true, sdrop 4 s)
          else if starts_with "false" s then Some (VBool false, sdrop 5 s)
          else if starts_with dq s then
            match parse_string (sdrop 1 s) EmptyString with
            | Some (t, r) => Some (VStr t, r)
            | None => None
            end
          else if starts_with "[" s then
            let r := drop_while is_ws (sdrop 1 s) in
            if starts_with "]" r then Some (VArr [], sdrop 1 r)
            else parse k (MElements []) r
          else if starts_with "{" s then
            let r := drop_while is_ws (sdrop 1 s) in
            if starts_with "}" r then Some (VObj [], sdrop 1 r)
            else parse k (MMembers []) r
          else match parse_int s with
               | Some (n, r) => Some (VNum n, r)
               | None => None
               end
      | MElements acc =>
          match parse k MValue s with
          | Some (v, r) =>
              let r := drop_while is_ws r in
              if starts_with "," r then parse k (MElements (acc ++ [v])) (sdrop 1 r)
              else if starts_with "]" r then Some (VArr (acc ++ [v]), sdrop 1 r)
              else None
          | None => None
          end
      | MMembers acc =>
          if starts_with dq s then
            match parse_string (sdrop 1 s) EmptyString with
            | Some (key, r) =>
                let r := drop_while is_ws r in
                if starts_with ":" r then
                  match parse k MValue (sdrop 1 r) with
                  | Some (v, r) =>
                      let r := drop_while is_ws r in
                      let acc := set_field acc key v in
                      if starts_with "," r then parse k (MMembers acc) (sdrop 1 r)
                      else if starts_with "}" r then Some (VObj acc, sdrop 1 r)
                      else None
                  | None => None
                  end
                else None
            | None => None
            end
          else None
      end
  end.

Definition syntax_error : error := Error "SyntaxError" "Unexpected token in JSON".

Definition JSON_parse (text : string) : completion value :=
  match parse (2 * slen text + 2) MValue text with
  | Some (v, rest) =>
      if seqb (drop_while is_ws rest) EmptyString then Return v else Throw syntax_error
  | None => Throw syntax_error
  end.

End JsonLite.

(* ===================================================================== *)
(** * src/src/helper.ts *)
(* ===================================================================== *)

Module Helper.
Import Js.

(** [trim]: [str.trim] exists on every string, so the first branch of the
    conditional is the one taken; the fallback pattern strips the same
    code units. *)
Definition trim (str : string) : string := js_trim str.

Definition is_slash (c : ascii) : bool := (code c =? 47)%N.

(** The class [[a-z\d+\-.]] under the [i] flag. *)
Definition is_scheme_char (c : ascii) : bool :=
  is_alpha c || is_digit c ||
  existsb (fun n => (code c =? n)%N) [43; 45; 46]%N.

(** [isAbsoluteURL]: the pattern [^([a-z][a-z\d+\-.]*:)?\/\/] with the [i]
    flag. The starred class contains neither [:] nor [/], so the group can
    only end at the first code unit outside the class. *)
Definition isAbsoluteURL (url : string) : bool :=
  starts_with "//" url ||
  match url with
  | String c r => is_alpha c && starts_with "://" (drop_while is_scheme_char r)
  | EmptyString => false
  end.

(** [combineURLs]: [replace(/\/+$/, '')] removes the trailing run of
    slashes, [replace(/^\/+/, '')] the leading one. *)
Definition combineURLs (baseURL relativeURL : string) : string :=
  if negb (seqb relativeURL EmptyString)
  then drop_while_end is_slash baseURL +:+ "/" +:+ drop_while is_slash relativeURL
  else baseURL.

Definition buildFullPath (baseURL requestedURL : string) : string :=
  if negb (seqb baseURL EmptyString) && negb (isAbsoluteURL requestedURL)
  then combineURLs baseURL requestedURL
  else requestedURL.

(** [encode]: [encodeURIComponent] and then the six replacements, in the
    order of the source. *)
Definition encode (val : string) : string :=
  replace_g true "%5D" "]"
    (replace_g true "%5B" "["
      (replace_g false "%20" "+"
        (replace_g true "%2C" ","
          (replace_g false "%24" "$"
            (replace_g true "%3A" ":" (encodeURIComponent val)))))).

Definition isObject (val : value) : bool :=
  match val with
  | VDate _ | VArr _ | VObj _ => true
  | _ => false
  end.

(** [kindOf]: the class tag of [Object.prototype.toString], lower-cased. *)
Definition kindOf (thing : value) : string :=
  match thing with
  | VUndefined => "undefined"
  | VNull => "null"
  | VBool _ => "boolean"
  | VNum _ => "number"
  | VStr _ => "string"
  | VDate _ => "date"
  | VArr _ => "array"
  | VObj _ => "object"
  end.

Definition kindOfTest (type : string) (thing : value) : bool :=
  seqb (kindOf thing) (toLowerCase type).

Definition isDate : value -> bool := kindOfTest "Date".

(** One [key=value] part of the query, for one element [v]. *)
Definition query_part (key : string) (v : value) : string :=
  let v' :=
    if isDate v then match v with VDate iso => VStr iso | _ => v end
    else if isObject v
         then match JSON_stringify v with Some t => VStr t | None => VUndefined end
         else v in
  encode key +:+ "=" +:+ encode (to_String v').

(** The parts one entry of [params] contributes. *)
Definition query_entry (entry : string * value) : list string :=
  let '(key, value) := entry in
  if is_nullish value then []
  else match value with
       | VArr xs => List.map (query_part (key +:+ "[]")) xs
       | _ => List.map (query_part key) [value]
       end.

Definition buildURL (url : string) (params : option (list (string * value))) : string :=
  match params with
  | None => url
  | Some entries =>
      let parts := List.concat (List.map query_entry entries) in
      url +:+ (if indexOf url "?" =? -1 then "?" else "&") +:+ join "&" parts
  end.

(** Headers whose duplicates are ignored. *)
Definition ignoreDuplicateOf : list string :=
  [ "age"; "authorization"; "content-length"; "content-type"; "etag";
    "expires"; "from"; "host"; "if-modified-since"; "if-unmodified-since";
    "last-modified"; "location"; "max-forwards"; "proxy-authorization";
    "referer"; "retry-after"; "user-agent" ].

(** [ignoreDuplicateOf.indexOf(key) >= 0]. *)
Definition ignores_duplicate (key : string) : bool :=
  existsb (seqb key) ignoreDuplicateOf.

(** A parsed header is a string, or for [set-cookie] an array of strings. *)
Inductive hval : Type :=
  | HStr (s : string)
  | HList (l : list string).

(** Truthiness of an own property of [parsed]: with none the read is
    [undefined] (but for the names the object inherits, see
    [inherited_text]), an empty string is falsy, an array is truthy. *)
Definition present (o : option hval) : bool :=
  match o with
  | None => false
  | Some (HStr s) => negb (seqb s EmptyString)
  | Some (HList _) => true
  end.

(** The key and the value [parseHeaders] reads off one line. With no colon
    [indexOf] is -1: the key is the line without its last code unit and the
    value is the whole line. *)
Definition line_key (line : string) : string :=
  toLowerCase (trim (slice line 0 (indexOf line ":"))).

Definition line_val (line : string) : string :=
  trim (slice_from line (indexOf line ":" + 1)).

(** The text [+] makes of the built-in function [Object]: the form the
    language fixes for a built-in function, with the white space V8 and
    JavaScriptCore print. *)
Definition Object_text : string := "function Object() { [native code] }".

(** What [parsed[key]] reads when the plain object [parsed] has no own
    property [key]. The keys are in lower case, and of the names every
    object inherits only [constructor] and [__proto__] are: the first reads
    the function [Object], the second the prototype, an object. Both are
    truthy, and this is the string [+] makes of them. *)
Definition inherited_text (key : string) : option string :=
  if seqb key "constructor" then Some Object_text
  else if seqb key "__proto__" then Some "[object Object]"
  else None.

(** Truthiness of [parsed[key]], own or inherited. *)
Definition reads_truthy (parsed : gmap string hval) (key : string) : bool :=
  match parsed !! key with
  | Some v => present (Some v)
  | None => bool_decide (is_Some (inherited_text key))
  end.

(** [parsed[key] = v]. An assignment to [__proto__] goes to the setter of
    [Object.prototype], which ignores a string and an array: it makes no
    own property. *)
Definition assign (parsed : gmap string hval) (key : string) (v : hval)
    : gmap string hval :=
  if seqb key "__proto__" then parsed else <[key := v]> parsed.

(** The body of the [forEach] over the lines. The map holds the own
    properties of the result object, under lower-cased names; what the
    object inherits is read through [inherited_text]. Under [set-cookie]
    only arrays are ever stored and under any other key only strings, so
    the two arms that keep [parsed] as it is cannot be reached from the
    empty object. *)
Definition parse_line (parsed : gmap string hval) (line : string) : gmap string hval :=
  let key := line_key line in
  let val := line_val line in
  if seqb key EmptyString then parsed
  else if reads_truthy parsed key && ignores_duplicate key then parsed
  else if seqb key "set-cookie" then
    match parsed !! key with
    | Some (HList l) => assign parsed key (HList (l ++ [val]))
    | Some (HStr s) =>
        if seqb s EmptyString then assign parsed key (HList [val]) else parsed
    | None => assign parsed key (HList [val])
    end
  else
    match parsed !! key with
    | Some (HStr s) =>
        if seqb s EmptyString then assign parsed key (HStr val)
        else assign parsed key (HStr (s +:+ ", " +:+ val))
    | Some (HList _) => parsed
    | None =>
        match inherited_text key with
        | Some text => assign parsed key (HStr (text +:+ ", " +:+ val))
        | None => assign parsed key (HStr val)
        end
    end.

Definition newline : ascii := ascii_of_N 10.

Definition parseHeaders (headers : string) : gmap string hval :=
  if seqb headers EmptyString then ∅
  else fold_left parse_line (split headers newline) ∅.

(** [parseProtocol]: the pattern [^([-+\w]{1,25})(:?\/\/|:)]. The first
    group is greedy: the longest run is tried first and shorter ones on
    backtracking. *)
Definition is_protocol_char (c : ascii) : bool :=
  is_word c || (code c =? 45)%N || (code c =? 43)%N.

Fixpoint all_chars (f : ascii -> bool) (s : string) : bool :=
  match s with
  | EmptyString => true
  | String c r => f c && all_chars f r
  end.

Definition protocol_tail (rest : string) : bool :=
  starts_with "://" rest || starts_with "//" rest || starts_with ":" rest.

Fixpoint protocol_match (n : nat) (url : string) : option string :=
  match n with
  | O => None
  | S k =>
      let group := stake n url in
      if (slen group =? n)%nat && all_chars is_protocol_char group
         && protocol_tail (sdrop n url)
      then Some group
      else protocol_match k url
  end.

Definition parseProtocol (url : string) : string :=
  match protocol_match 25 url with
  | Some group => group
  | None => EmptyString
  end.

(** [stringifySafely]. [JSON.parse] belongs to the platform: it returns a
    value or throws, and the function only looks at which of the two
    happened and at the name of what was thrown. *)
Section StringifySafely.
Variable JSON_parse : string -> completion value.

Definition stringify_value (v : value) : value :=
  match JSON_stringify v with
  | Some text => VStr text
  | None => VUndefined
  end.

Definition stringifySafely (rawValue : value) : completion value :=
  match rawValue with
  | VStr s =>
      match JSON_parse s with
      | Return _ => Return (VStr (trim s))
      | Throw e =>
          if negb (seqb (name e) "SyntaxError") then Throw e
          else Return (stringify_value rawValue)
      end
  | _ => Return (stringify_value rawValue)
  end.
End StringifySafely.

(** ** Request bodies and header objects *)

(** A request body is a plain value or a host object: form data, a buffer,
    a stream, a file, a blob, a typed-array view (over a buffer) or URL
    search parameters (with the text their [toString] gives). [tag] only
    tells two host objects of a kind apart. *)
Inductive host_kind : Type :=
  | FormData | ArrayBuffer | Buffer | Stream | File | Blob
  | ArrayBufferView | URLSearchParams.

#[global] Instance host_kind_eq_dec : EqDecision host_kind.
Proof. solve_decision. Defined.

Inductive payload : Type :=
  | Plain (v : value)
  | Host (kind : host_kind) (tag : string).

Definition payload_truthy (p : payload) : bool :=
  match p with
  | Plain v => truthy v
  | Host _ _ => true
  end.

(** [typeof p === 'undefined']. *)
Definition is_undefined (p : payload) : bool :=
  match p with
  | Plain VUndefined => true
  | _ => false
  end.

(** A header object: names with their values, in own-property order.
    Names are unique; [hset] keeps the place of a name that exists and
    appends a new one, as an assignment to a property does. *)
Definition headers_t : Type := list (string * value).

Fixpoint hget (h : headers_t) (key : string) : value :=
  match h with
  | [] => VUndefined
  | (k, v) :: rest => if seqb k key then v else hget rest key
  end.

Fixpoint hset (h : headers_t) (key : string) (val : value) : headers_t :=
  match h with
  | [] => [(key, val)]
  | (k, v) :: rest =>
      if seqb k key then (k, val) :: rest else (k, v) :: hset rest key val
  end.

Definition hdelete (h : headers_t) (key : string) : headers_t :=
  List.filter (fun kv => negb (seqb (fst kv) key)) h.

(** [{...a, ...b}]. *)
Definition hspread (a b : headers_t) : headers_t :=
  fold_left (fun acc kv => hset acc (fst kv) (snd kv)) b a.

(** Modelled from the spec: [normalizeHeaderName] is imported from
    ./helper but not defined in the helper.ts at hand. Section 4.2: it
    finds any case-insensitive match for the canonical name among the
    existing keys and renames it to the canonical casing in place, leaving
    the value untouched; with no match it does nothing. A later property
    that already has the canonical name is dropped, names being unique. *)
Fixpoint normalizeHeaderName (h : headers_t) (normalizedName : string) : headers_t :=
  match h with
  | [] => []
  | (k, v) :: rest =>
      if seqb (toLowerCase k) (toLowerCase normalizedName)
      then (normalizedName, v) :: hdelete rest normalizedName
      else (k, v) :: normalizeHeaderName rest normalizedName
  end.

(** Modelled from the spec: [setContentTypeIfUnset] is imported from
    ./helper but not defined there. Section 4.2: it sets the value only
    when the canonical key is absent. *)
Definition setContentTypeIfUnset (h : headers_t) (val : string) : headers_t :=
  match hget h "Content-Type" with
  | VUndefined => hset h "Content-Type" (VStr val)
  | _ => h
  end.

(** Modelled from the spec: the shape tests [isFormData], [isArrayBuffer],
    [isBuffer], [isStream], [isFile], [isBlob], [isArrayBufferView] and
    [isURLSearchParams] are imported from ./helper but not defined there.
    Section 4.3 names the shapes they recognise. *)
Definition is_kind (k : host_kind) (p : payload) : bool :=
  match p with
  | Host k' _ => bool_decide (k = k')
  | Plain _ => false
  end.

Definition isFormData := is_kind FormData.
Definition isArrayBuffer := is_kind ArrayBuffer.
Definition isBuffer := is_kind Buffer.
Definition isStream := is_kind Stream.
Definition isFile := is_kind File.
Definition isBlob := is_kind Blob.
Definition isArrayBufferView := is_kind ArrayBufferView.
Definition isURLSearchParams := is_kind URLSearchParams.

End Helper.

(* ===================================================================== *)
(** * src/src/client.ts *)
(* ===================================================================== *)

Module Client.
Import Js Helper.

(** The [Method] union. *)
Inductive Method : Type :=
  | m_get | GET | m_delete | DELETE | m_head | HEAD | m_options | OPTIONS
  | m_post | POST | m_put | PUT | m_patch | PATCH.

Definition method_string (m : Method) : string :=
  match m with
  | m_get => "get" | GET => "GET" | m_delete => "delete" | DELETE => "DELETE"
  | m_head => "head" | HEAD => "HEAD" | m_options => "options"
  | OPTIONS => "OPTIONS" | m_post => "post" | POST => "POST" | m_put => "put"
  | PUT => "PUT" | m_patch => "patch" | PATCH => "PATCH"
  end.

(** [RequetConstructor]; [None] is a property that is absent. A property
    present with the value [undefined], which [Object.assign] would copy
    over a default, is not told apart from an absent one. *)
Record RequetConstructor : Type := {
  ctor_baseURL : option string;
  ctor_headers : option headers_t;
  ctor_timeout : option Z;
  ctor_responseType : option string
}.

(** [RequestConfig]; [withCredentials] is declared and never read. An
    absent [data] is [Plain VUndefined]. *)
Record RequestConfig : Type := {
  baseURL : option string;
  headers : option headers_t;
  timeout : option Z;
  responseType : option string;
  url : string;
  method : option Method;
  params : option (list (string * value));
  data : payload
}.

Record ReqeustResponse : Type := {
  resp_data : payload;
  status : Z;
  statusText : string;
  resp_headers : gmap string hval;
  config : RequestConfig
}.

(** ** InterceptorManager *)

(** One slot of [handlers]. The callbacks may return a value, return a
    promise or throw: a slot is described by what the promise made by
    [then] settles to. *)
Record handler (T : Type) : Type := {
  fulfilled : T -> settled T;
  rejected : error -> settled T
}.
Arguments fulfilled {T} h a.
Arguments rejected {T} h e.

(** The [handlers] array; [None] is a slot set to [null] (or a hole left
    by an index past the end: [reduce] and the spread skip both). *)
Abbreviation InterceptorManager T := (list (option (handler T))).

(** The default [onRejected], [() => {}]: it returns [undefined], so the
    values a chain carries are [option T], [None] being [undefined]. *)
Definition noop {T} (e : error) : settled (option T) := Fulfilled None.

(** [use]: the new array and the handle. *)
Definition use {T} (m : InterceptorManager T) (h : handler T)
    : InterceptorManager T * nat :=
  (m ++ [Some h], (length (m ++ [Some h]) - 1)%nat).

(** [eject]: [handlers[id] = null]. Past the end the array grows to hold
    the index. *)
Definition eject {T} (m : InterceptorManager T) (id : nat) : InterceptorManager T :=
  if (id <? length m)%nat then <[id := None]> m
  else m ++ replicate (id - length m) None ++ [None].

(** [promise.then(v => handler.fulfilled(v), e => handler.rejected(e))]. *)
Definition then_handler {T} (promise : settled T) (h : handler T) : settled T :=
  then_ promise (fulfilled h) (rejected h).

(** The callback of [reduce] in [berforeRequest] and [afterRequest]: a
    [null] slot hands the accumulated promise on, any other slot chains
    [then] on it. *)
Definition chain_step {T} (promise : settled T) (h : option (handler T)) : settled T :=
  match h with
  | None => promise
  | Some h => then_handler promise h
  end.

Definition type_error : error :=
  Error "TypeError" "Cannot read properties of undefined".

Section WithPlatform.
Variable JSON_parse : string -> completion value.

(** ** transformRequest

    The header object is changed in place; the function returns it next
    to the body. When [stringifySafely] throws, nothing is returned. *)
Definition transformRequest (data : payload) (headers : headers_t)
    : completion (payload * headers_t) :=
  let headers := normalizeHeaderName headers "Accept" in
  let headers := normalizeHeaderName headers "Content-Type" in
  if negb (payload_truthy data) || isFormData data || isArrayBuffer data
     || isBuffer data || isStream data || isFile data || isBlob data
  then Return (data, headers)
  else if isArrayBufferView data then
    match data with
    | Host _ tag => Return (Host ArrayBuffer tag, headers)
    | Plain _ => Return (data, headers)
    end
  else if isURLSearchParams data then
    match data with
    | Host _ text =>
        Return (Plain (VStr text),
                setContentTypeIfUnset headers
                  "application/x-www-form-urlencoded;charset=utf-8")
    | Plain _ => Return (data, headers)
    end
  else
    match data with
    | Host _ _ => Return (data, headers)
    | Plain v =>
        let isObjectPayload := isObject v in
        let contentType :=
          let ct := hget headers "Content-Type" in
          if truthy ct then to_String ct else EmptyString in
        if isObjectPayload
           || negb (indexOf contentType "application/json" =? -1)
        then
          let headers := setContentTypeIfUnset headers "application/json" in
          match stringifySafely JSON_parse v with
          | Return text => Return (Plain text, headers)
          | Throw e => Throw e
          end
        else Return (data, headers)
    end.

(** ** beforeSendRquestInterceptor *)
Definition beforeSend_fulfilled (c : option RequestConfig)
    : settled (option RequestConfig) :=
  match c with
  | None => Rejected type_error
  | Some config =>
      let hs := match headers config with Some h => h | None => [] end in
      let hs :=
        if bool_decide (responseType config = Some "json")
        then hset (hset hs "Accept" (VStr "application/json"))
                  "Content-Type" (VStr "application/json")
        else hs in
      let body :=
        if payload_truthy (data config) then data config
        else Plain (VObj []) in
      match transformRequest body hs with
      | Return (body', hs') =>
          Fulfilled (Some {| baseURL := baseURL config;
                             headers := Some hs';
                             timeout := timeout config;
                             responseType := responseType config;
                             url := url config;
                             method := method config;
                             params := params config;
                             data := body' |})
      | Throw e => Rejected e
      end
  end.

Definition beforeSendRquestInterceptor : handler (option RequestConfig) :=
  {| fulfilled := beforeSend_fulfilled; rejected := noop |}.

(** ** The transport

    What the code does to the [XMLHttpRequest] is recorded as the list of
    calls and assignments it makes, in order. The transport answers with
    the one callback that settles the promise. *)
Inductive xhr_call : Type :=
  | SetTimeout (ms : Z)
  | Open (method url : string) (async : bool)
  | SetRequestHeader (key val : string)
  | SetResponseType (type : string)
  | Send (body : payload).

Record xhr_state : Type := {
  xhr_status : Z;
  xhr_statusText : string;
  xhr_responseText : string;
  xhr_response : payload;
  xhr_allResponseHeaders : string
}.

Inductive terminal : Type :=
  | Loaded (x : xhr_state)
  | OnError
  | OnTimeout
  | OnAbort.

Record exchange : Type := {
  calls : list xhr_call;
  deleted : list string;
  outcome : settled (option ReqeustResponse)
}.

Definition supported_protocols : list string := ["http"; "https"; "file"; "blob"].

(** The [forEach] over [Object.entries(requestHeaders)]: for each entry
    either the property is deleted or the header is set, once per element
    when the value is an array. *)
Definition header_calls (body : payload) (entry : string * value)
    : list xhr_call * list string :=
  let '(key, header) := entry in
  if is_undefined body && seqb (toLowerCase key) "content-type"
  then ([], [key])
  else
    let headerContents := match header with VArr xs => xs | _ => [header] end in
    (List.map (fun v => SetRequestHeader key (to_String v)) headerContents, []).

(** [onloadend]. *)
Definition onloadend (mergeConfig : RequestConfig) (responseType : string)
    (x : xhr_state) : ReqeustResponse :=
  let responseData :=
    if seqb responseType EmptyString || seqb responseType "text"
       || seqb responseType "json"
    then Plain (VStr (xhr_responseText x))
    else xhr_response x in
  {| resp_data := responseData;
     status := xhr_status x;
     statusText := xhr_statusText x;
     resp_headers := parseHeaders (xhr_allResponseHeaders x);
     config := mergeConfig |}.

(** [_request]. Called with [undefined] the destructuring throws, and the
    [async] function returns a rejected promise. *)
Definition _request (mergeConfig : option RequestConfig) (ev : terminal) : exchange :=
  match mergeConfig with
  | None => {| calls := []; deleted := []; outcome := Rejected type_error |}
  | Some cfg =>
      let responseType :=
        match responseType cfg with Some t => t | None => "json" end in
      let requestHeaders := match headers cfg with Some h => h | None => [] end in
      let fullPath :=
        buildFullPath (match baseURL cfg with Some b => b | None => EmptyString end)
                      (url cfg) in
      let requestUrl := buildURL fullPath (params cfg) in
      let protocol := parseProtocol fullPath in
      let timeout_calls :=
        match timeout cfg with
        | Some t => if t =? 0 then [] else [SetTimeout t]
        | None => []
        end in
      if negb (seqb protocol EmptyString)
         && negb (existsb (seqb protocol) supported_protocols)
      then {| calls := timeout_calls; deleted := [];
              outcome := Rejected (Error "Error" "Unsupported protocol") |}
      else
        let verb :=
          toUpperCase (match method cfg with
                       | Some m => method_string m
                       | None => "get"
                       end) in
        let per_header := List.map (header_calls (data cfg)) requestHeaders in
        let type_calls :=
          if negb (seqb responseType EmptyString) && negb (seqb responseType "json")
          then [SetResponseType responseType] else [] in
        let body := if payload_truthy (data cfg) then data cfg else Plain VNull in
        {| calls := timeout_calls ++ [Open verb requestUrl true]
                    ++ List.concat (List.map fst per_header)
                    ++ type_calls ++ [Send body];
           deleted := List.concat (List.map snd per_header);
           outcome :=
             match ev with
             | Loaded x => Fulfilled (Some (onloadend cfg responseType x))
             | OnError => Rejected (Error "Error" "Network request failed")
             | OnTimeout => Rejected (Error "Error" "Network request timeout")
             | OnAbort => Rejected (Error "Error" "Network request aborted")
             end |}
  end.

(** ** The Client *)

Record Client : Type := {
  defaultOptions : RequetConstructor;
  request_interceptors : InterceptorManager (option RequestConfig);
  response_interceptors : InterceptorManager (option ReqeustResponse)
}.

Definition or_else {A} (a b : option A) : option A :=
  match a with Some _ => a | None => b end.

(** [String(p)] for a body, the conversion [JSON.parse] applies to its
    argument. *)
Definition host_class (k : host_kind) : string :=
  match k with
  | FormData => "[object FormData]" | ArrayBuffer => "[object ArrayBuffer]"
  | Buffer => "[object Buffer]" | Stream => "[object Stream]"
  | File => "[object File]" | Blob => "[object Blob]"
  | ArrayBufferView => "[object ArrayBufferView]"
  | URLSearchParams => "[object URLSearchParams]"
  end.

Definition payload_text (p : payload) : string :=
  match p with
  | Plain v => to_String v
  | Host k text =>
      if bool_decide (k = URLSearchParams) then text else host_class k
  end.

(** The response stage the constructor installs. *)
Definition parse_json_response (response : option ReqeustResponse)
    : settled (option ReqeustResponse) :=
  match response with
  | None => Rejected type_error
  | Some r =>
      if bool_decide (responseType (config r) = Some "json")
         && payload_truthy (resp_data r)
      then
        match JSON_parse (payload_text (resp_data r)) with
        | Return v =>
            Fulfilled (Some {| resp_data := Plain v;
                               status := status r;
                               statusText := statusText r;
                               resp_headers := resp_headers r;
                               config := config r |})
        | Throw e => Rejected e
        end
      else Fulfilled (Some r)
  end.

Definition json_stage : handler (option ReqeustResponse) :=
  {| fulfilled := parse_json_response; rejected := fun e => Rejected e |}.

(** The class field initialiser of [defaultOptions]. *)
Definition initial_defaultOptions : RequetConstructor :=
  {| ctor_baseURL := None;
     ctor_headers := Some [("Accept", VStr "application/json, text/plain, */*")];
     ctor_timeout := None;
     ctor_responseType := None |}.

(** [Object.assign(target, source)] on the four properties. *)
Definition assign_options (target source : RequetConstructor) : RequetConstructor :=
  {| ctor_baseURL := or_else (ctor_baseURL source) (ctor_baseURL target);
     ctor_headers := or_else (ctor_headers source) (ctor_headers target);
     ctor_timeout := or_else (ctor_timeout source) (ctor_timeout target);
     ctor_responseType := or_else (ctor_responseType source) (ctor_responseType target) |}.

Definition constructor (options : RequetConstructor) : Client :=
  {| defaultOptions := assign_options initial_defaultOptions options;
     request_interceptors := [];
     response_interceptors := fst (use [] json_stage) |}.

(** ** request *)

Definition berforeRequest (c : Client) (config : RequestConfig)
    : settled (option RequestConfig) :=
  let handlers := request_interceptors c ++ [Some beforeSendRquestInterceptor] in
  fold_left chain_step handlers (Fulfilled (Some config)).

Definition afterRequest (c : Client) (promise : settled (option ReqeustResponse))
    : settled (option ReqeustResponse) :=
  fold_left chain_step (response_interceptors c) promise.

(** [Object.assign({}, this.defaultOptions, reqeustConfig, {headers})]. *)
Definition merge_config (c : Client) (reqeustConfig : RequestConfig) : RequestConfig :=
  let d := defaultOptions c in
  let spread o := match o with Some h => h | None => [] end in
  {| baseURL := or_else (baseURL reqeustConfig) (ctor_baseURL d);
     headers := Some (hspread (spread (ctor_headers d)) (spread (headers reqeustConfig)));
     timeout := or_else (timeout reqeustConfig) (ctor_timeout d);
     responseType := or_else (responseType reqeustConfig) (ctor_responseType d);
     url := url reqeustConfig;
     method := method reqeustConfig;
     params := params reqeustConfig;
     data := data reqeustConfig |}.

(** [request]: when the awaited request chain rejects, the function
    throws before [_request] is called and the transport is not touched. *)
Definition request (c : Client) (reqeustConfig : RequestConfig) (ev : terminal)
    : exchange :=
  match berforeRequest c (merge_config c reqeustConfig) with
  | Rejected e => {| calls := []; deleted := []; outcome := Rejected e |}
  | Fulfilled mergeConfig =>
      let sent := _request mergeConfig ev in
      {| calls := calls sent; deleted := deleted sent;
         outcome := afterRequest c (outcome sent) |}
  end.

(** ** The verb shortcuts

    [options] stands for both [ParamsRequestOptions] and
    [DataRequestOptions]: the spread [{...options, method, url, params}]
    overwrites [params] whatever the options hold. *)
Record RequestOptions : Type := {
  opt_baseURL : option string;
  opt_headers : option headers_t;
  opt_timeout : option Z;
  opt_responseType : option string;
  opt_params : option (list (string * value))
}.

Definition no_options : RequestOptions :=
  {| opt_baseURL := None; opt_headers := None; opt_timeout := None;
     opt_responseType := None; opt_params := None |}.

Definition params_config (m : Method) (url : string)
    (params : option (list (string * value))) (options : option RequestOptions)
    : RequestConfig :=
  let o := match options with Some o => o | None => no_options end in
  {| baseURL := opt_baseURL o; headers := opt_headers o;
     timeout := opt_timeout o; responseType := opt_responseType o;
     url := url; method := Some m; params := params;
     data := Plain VUndefined |}.

Definition data_config (m : Method) (url : string)
    (data : payload) (options : option RequestOptions) : RequestConfig :=
  let o := match options with Some o => o | None => no_options end in
  {| baseURL := opt_baseURL o; headers := opt_headers o;
     timeout := opt_timeout o; responseType := opt_responseType o;
     url := url; method := Some m; params := opt_params o;
     data := data |}.

Definition _paramsRequest (c : Client) m url params options :=
  request c (params_config m url params options).

Definition _dataRequest (c : Client) m url data options :=
  request c (data_config m url data options).

Definition head (c : Client) url params opts := _paramsRequest c HEAD url params opts.
Definition options (c : Client) url params opts := _paramsRequest c HEAD url params opts.
Definition get (c : Client) url params opts := _paramsRequest c GET url params opts.
Definition delete (c : Client) url params opts := _paramsRequest c DELETE url params opts.
Definition post (c : Client) url data opts := _dataRequest c POST url data opts.
Definition put (c : Client) url data opts := _dataRequest c PUT url data opts.
Definition patch (c : Client) url data opts := _dataRequest c PATCH url data opts.

End WithPlatform.

(** ** The folds, one callback at a time

    [reduce] runs to its end before any callback does: for every slot that
    is not [null] at that moment it registers one [then], whose callbacks
    hold the slot's handler itself. The callbacks run later, one job after
    the other, and [use] or [eject] may be called in between: they change
    the array of the manager, not the jobs already registered. *)
Section Loop.
Context {T : Type}.

(** The handlers [reduce] registers a [then] for. *)
Definition registered (handlers : list (option (handler T))) : list (handler T) :=
  omap id handlers.

Record fold : Type := {
  pending : list (handler T);
  current : settled T;
  ran : list (handler T)
}.

Record world : Type := {
  manager : InterceptorManager T;
  inflight : option fold
}.

(** [trailing] is what the fold appends to the array of the manager: the
    implicit last stage for requests, nothing for responses. *)
Inductive event : Type :=
  | EUse (h : handler T)
  | EEject (id : nat)
  | EStart (trailing : list (option (handler T))) (init : settled T)
  | EJob.

Definition job (f : fold) : fold :=
  match pending f with
  | [] => f
  | h :: rest =>
      {| pending := rest;
         current := then_handler (current f) h;
         ran := ran f ++ [h] |}
  end.

Fixpoint jobs (n : nat) (f : fold) : fold :=
  match n with
  | O => f
  | S k => jobs k (job f)
  end.

Definition step (w : world) (e : event) : world :=
  match e with
  | EUse h => {| manager := fst (use (manager w) h); inflight := inflight w |}
  | EEject id => {| manager := eject (manager w) id; inflight := inflight w |}
  | EStart trailing init =>
      {| manager := manager w;
         inflight := Some {| pending := registered (manager w ++ trailing);
                             current := init; ran := [] |} |}
  | EJob => {| manager := manager w; inflight := job <$> inflight w |}
  end.

Definition steps (w : world) (es : list event) : world := fold_left step es w.

Definition idle : world := {| manager := []; inflight := None |}.
End Loop.
Arguments fold T : clear implicits.
Arguments world T : clear implicits.
Arguments event T : clear implicits.

End Client.

(* ===================================================================== *)
(** * The duplicated Client of src/unnamed/part_000 *)
(* ===================================================================== *)

Module Draft.
Import Js Helper.

Record Client : Type := {
  defaultOptions : Client.RequetConstructor;
  request_interceptors : Client.InterceptorManager (option Client.RequestConfig);
  response_interceptors : Client.InterceptorManager (option Client.ReqeustResponse)
}.

(** The callback of [reduce] in this [afterRequest]: on a [null] slot it
    returns [promise], the argument of [afterRequest], not the accumulator
    [request]. [None] is a [null] slot here; a hole, which [reduce] steps
    over without calling the callback, is not a slot of this fold. *)
Definition after_step {T} (promise request : settled T)
    (h : option (Client.handler T)) : settled T :=
  match h with
  | None => promise
  | Some h => Client.then_handler request h
  end.

Definition afterRequest (c : Client)
    (promise : settled (option Client.ReqeustResponse))
    : settled (option Client.ReqeustResponse) :=
  fold_left (after_step promise) (response_interceptors c) promise.

End Draft.

(* ===================================================================== *)
(** * src/src/api.ts *)
(* ===================================================================== *)

Module Api.
Import Js Helper.

(** ** What the platform does for attachAPI *)

Fixpoint take_while (f : ascii -> bool) (s : string) : string :=
  match s with
  | EmptyString => EmptyString
  | String c r => if f c then String c (take_while f r) else EmptyString
  end.

(** The replacement text of [replace] for a string pattern, which has no
    captures: [$$] is a dollar, [$&] the matched text, [$`] what precedes
    it and [$'] what follows it; any other dollar stands for itself. *)
Fixpoint substitute (matched before after replacement : string) : string :=
  match replacement with
  | EmptyString => EmptyString
  | String c rest =>
      if (code c =? 36)%N then
        match rest with
        | String d rest' =>
            if (code d =? 36)%N then "$" +:+ substitute matched before after rest'
            else if (code d =? 38)%N then matched +:+ substitute matched before after rest'
            else if (code d =? 96)%N then before +:+ substitute matched before after rest'
            else if (code d =? 39)%N then after +:+ substitute matched before after rest'
            else String c (substitute matched before after rest)
        | EmptyString => String c EmptyString
        end
      else String c (substitute matched before after rest)
  end.

(** The first occurrence of [pattern] in [s]: what precedes it and what
    follows it. *)
Fixpoint find_first (pattern s : string) : option (string * string) :=
  if starts_with pattern s then Some (EmptyString, sdrop (slen pattern) s)
  else
    match s with
    | EmptyString => None
    | String c r =>
        match find_first pattern r with
        | Some (before, after) => Some (String c before, after)
        | None => None
        end
    end.

(** [s.replace(pattern, replacement)] for a string pattern: the first
    occurrence is replaced, and [s] is returned as it is when there is
    none. *)
Definition replace (s pattern replacement : string) : string :=
  match find_first pattern s with
  | Some (before, after) =>
      before +:+ substitute pattern before after replacement +:+ after
  | None => s
  end.

(** The names every object inherits from [Object.prototype]. *)
Definition Object_prototype : list string :=
  ["constructor"; "__defineGetter__"; "__defineSetter__"; "hasOwnProperty";
   "__lookupGetter__"; "__lookupSetter__"; "isPrototypeOf";
   "propertyIsEnumerable"; "toString"; "valueOf"; "__proto__";
   "toLocaleString"].

(** [String(v)] as [replace] applies it to a replacement that is not a
    function. A [Date] prints its local time, which the embedding does not
    carry: a value that holds a date where the conversion reads it has no
    text here. *)
Fixpoint dateless (v : value) : bool :=
  match v with
  | VDate _ => false
  | VArr xs => forallb dateless xs
  | _ => true
  end.

Definition ToString (v : value) : option string :=
  if dateless v then Some (to_String v) else None.

(** ** attachAPI *)

(** The alternatives of [MATCH_METHOD], in the order of the pattern. None
    of them starts another, so at most one can match. *)
Definition method_alternatives : list string :=
  ["GET"; "POST"; "PUT"; "DELETE"; "HEAD"; "OPTIONS"; "CONNECT"; "TRACE"; "PATCH"].

Definition USE_DATA_METHODS : list string := ["POST"; "PUT"; "PATCH"].

(** [apiPath.match(MATCH_METHOD)]: the first alternative that starts the
    path and is followed by white space; the match takes the whole run of
    white space. The result is the matched text and the group. *)
Fixpoint match_alternatives (alternatives : list string) (apiPath : string)
    : option (string * string) :=
  match alternatives with
  | [] => None
  | verb :: rest =>
      let spaces := take_while is_space (sdrop (slen verb) apiPath) in
      if starts_with verb apiPath && negb (seqb spaces EmptyString)
      then Some (verb +:+ spaces, verb)
      else match_alternatives rest apiPath
  end.

Definition MATCH_METHOD (apiPath : string) : option (string * string) :=
  match_alternatives method_alternatives apiPath.

(** [apiPath.match(MATCH_PATH_PARAMS)], the pattern [/:(\w+)/g]: at every
    colon, the colon with the longest run of letters, digits and
    underscores that follows it; a colon followed by none is no match. The
    run holds no colon, so the scan that goes on after the colon finds the
    matches the scan that goes on after the run finds. No match at all is
    [null] in the code, which then skips the loop: the empty list here. *)
Fixpoint MATCH_PATH_PARAMS (apiPath : string) : list string :=
  match apiPath with
  | EmptyString => []
  | String c r =>
      if (code c =? 58)%N then
        match take_while is_word r with
        | EmptyString => MATCH_PATH_PARAMS r
        | run => String c run :: MATCH_PATH_PARAMS r
        end
      else MATCH_PATH_PARAMS r
  end.

(** The arguments of a call: an object, its own properties in order. *)
Definition arguments : Type := list (string * value).

Definition has_own (o : arguments) (key : string) : bool :=
  existsb (fun kv => seqb (fst kv) key) o.

(** [Reflect.has] also answers for the inherited properties. *)
Definition Reflect_has (o : arguments) (key : string) : bool :=
  has_own o key || existsb (seqb key) Object_prototype.

Definition Reflect_get (o : arguments) (key : string) : value := hget o key.

Definition Reflect_deleteProperty (o : arguments) (key : string) : arguments :=
  hdelete o key.

(** The body of the [forEach] over the placeholders: [url] and [_params]
    are the two variables it assigns. [None] is a run the embedding does
    not follow: the placeholder names an inherited property, whose value is
    a function that [replace] would call, or its value holds a date. *)
Definition fill (state : option (string * arguments)) (placeholder : string)
    : option (string * arguments) :=
  match state with
  | None => None
  | Some (url, _params) =>
      let key := replace placeholder ":" EmptyString in
      if Reflect_has _params key then
        if has_own _params key then
          match ToString (Reflect_get _params key) with
          | Some text =>
              Some (replace url placeholder text,
                    Reflect_deleteProperty _params key)
          | None => None
          end
        else None
      else state
  end.

(** [RequestOptions], the object form of an API config. *)
Record RequestOptions : Type := {
  path : string;
  method : string;
  headers : option headers_t
}.

(** An API config that is not a function; a function is stored as the API
    itself and never reaches [client.request]. *)
Inductive APIConfig : Type :=
  | PathConfig (apiPath : string)
  | OptionsConfig (o : RequestOptions).

Definition path_of (apiConfig : APIConfig) : string :=
  match apiConfig with
  | PathConfig p => p
  | OptionsConfig o => path o
  end.

(** The second argument of an API function, spread last into the config:
    the properties it may bring, [None] for those it does not have. *)
Record CallOptions : Type := {
  with_url : option string;
  with_method : option string;
  with_params : option arguments;
  with_data : option arguments;
  with_headers : option headers_t;
  with_baseURL : option string;
  with_timeout : option Z;
  with_responseType : option string
}.

Definition no_call_options : CallOptions :=
  {| with_url := None; with_method := None; with_params := None;
     with_data := None; with_headers := None; with_baseURL := None;
     with_timeout := None; with_responseType := None |}.

(** The object handed to [client.request]. *)
Record Call : Type := {
  call_url : string;
  call_method : string;
  call_params : option arguments;
  call_data : option arguments;
  call_headers : option headers_t;
  call_baseURL : option string;
  call_timeout : option Z;
  call_responseType : option string
}.

(** The function [attachAPI] stores for one API, up to its call of
    [client.request]. *)
Definition api_call (apiConfig : APIConfig) (params : option arguments)
    (options : option CallOptions) : option Call :=
  let apiPath := path_of apiConfig in
  let _params := match params with Some p => p | None => [] end in
  let '(prefix, verb) :=
    match MATCH_METHOD apiPath with
    | Some found => found
    | None => ("GET ", "GET")
    end in
  let url := replace apiPath prefix EmptyString in
  match fold_left fill (MATCH_PATH_PARAMS apiPath) (Some (url, _params)) with
  | None => None
  | Some (url, _params) =>
      let by_data := existsb (seqb verb) USE_DATA_METHODS in
      let o := match options with Some o => o | None => no_call_options end in
      let api_method :=
        match apiConfig with
        | PathConfig _ => None
        | OptionsConfig r => Some (method r)
        end in
      let api_headers :=
        match apiConfig with
        | PathConfig _ => None
        | OptionsConfig r => headers r
        end in
      Some
        {| call_url := match with_url o with Some u => u | None => url end;
           call_method :=
             match Client.or_else (with_method o) api_method with
             | Some m => m
             | None => toLowerCase verb
             end;
           call_params :=
             Client.or_else (with_params o)
               (if by_data then None else Some _params);
           call_data :=
             Client.or_else (with_data o)
               (if by_data then Some _params else None);
           call_headers := Client.or_else (with_headers o) api_headers;
           call_baseURL := with_baseURL o;
           call_timeout := with_timeout o;
           call_responseType := with_responseType o |}
  end.

(** The config of a call as [Client.request] reads it. [Method] has the
    fourteen spellings of seven verbs: a call with another method, CONNECT
    and TRACE among them, has no config here. *)
Definition Methods : list Client.Method :=
  [Client.m_get; Client.GET; Client.m_delete; Client.DELETE; Client.m_head;
   Client.HEAD; Client.m_options; Client.OPTIONS; Client.m_post; Client.POST;
   Client.m_put; Client.PUT; Client.m_patch; Client.PATCH].

Definition as_Method (m : string) : option Client.Method :=
  List.find (fun x => seqb (Client.method_string x) m) Methods.

Definition request_config (call : Call) : option Client.RequestConfig :=
  match as_Method (call_method call) with
  | None => None
  | Some m =>
      Some {| Client.baseURL := call_baseURL call;
              Client.headers := call_headers call;
              Client.timeout := call_timeout call;
              Client.responseType := call_responseType call;
              Client.url := call_url call;
              Client.method := Some m;
              Client.params := call_params call;
              Client.data :=
                match call_data call with
                | Some d => Plain (VObj d)
                | None => Plain VUndefined
                end |}
  end.

(** ** createRequestClient *)

Section WithPlatform.
Variable JSON_parse : string -> completion value.

(** [CreateRequestConfig] without [errorHandler]: with one, a rejection
    carries what the handler returns, which is [undefined] for a handler of
    the declared type and has no counterpart in [error]. A handler list
    that is absent is the empty list. The APIs that are functions are left
    out of [apis]. *)
Record CreateRequestConfig : Type := {
  cfg_baseURL : string;
  cfg_headers : option headers_t;
  requestHandlers :
    list (option Client.RequestConfig -> settled (option Client.RequestConfig));
  responseHandlers :
    list (option Client.ReqeustResponse -> settled (option Client.ReqeustResponse));
  cfg_timeout : option Z;
  cfg_responseType : option string;
  apis : list (string * APIConfig)
}.

(** [client.interceptors.request.use(requestHandler)]: the default
    [onRejected]. *)
Definition request_stage
    (requestHandler : option Client.RequestConfig -> settled (option Client.RequestConfig))
    : Client.handler (option Client.RequestConfig) :=
  {| Client.fulfilled := requestHandler; Client.rejected := Client.noop |}.

Definition response_stage
    (responseHandler :
       option Client.ReqeustResponse -> settled (option Client.ReqeustResponse))
    : Client.handler (option Client.ReqeustResponse) :=
  {| Client.fulfilled := responseHandler;
     Client.rejected := fun e => Rejected e |}.

(** The last response stage, with no [errorHandler]. *)
Definition error_stage : Client.handler (option Client.ReqeustResponse) :=
  {| Client.fulfilled := fun res => Fulfilled res;
     Client.rejected := fun e => Rejected e |}.

(** [new Client({baseURL, headers, timeout, responseType})]: the four
    properties are present in the object literal whatever their values, so
    [Object.assign] copies each of them over the class default, an
    [undefined] too. The interceptors are those of the constructor. *)
Definition new_Client (requestConfig : CreateRequestConfig) : Client.Client :=
  let options :=
    {| Client.ctor_baseURL := Some (cfg_baseURL requestConfig);
       Client.ctor_headers := cfg_headers requestConfig;
       Client.ctor_timeout := cfg_timeout requestConfig;
       Client.ctor_responseType := cfg_responseType requestConfig |} in
  let made := Client.constructor JSON_parse options in
  {| Client.defaultOptions := options;
     Client.request_interceptors := Client.request_interceptors made;
     Client.response_interceptors := Client.response_interceptors made |}.

Definition use_request (client : Client.Client)
    (h : Client.handler (option Client.RequestConfig)) : Client.Client :=
  {| Client.defaultOptions := Client.defaultOptions client;
     Client.request_interceptors :=
       fst (Client.use (Client.request_interceptors client) h);
     Client.response_interceptors := Client.response_interceptors client |}.

Definition use_response (client : Client.Client)
    (h : Client.handler (option Client.ReqeustResponse)) : Client.Client :=
  {| Client.defaultOptions := Client.defaultOptions client;
     Client.request_interceptors := Client.request_interceptors client;
     Client.response_interceptors :=
       fst (Client.use (Client.response_interceptors client) h) |}.

(** The client [createRequestClient] hands to [attachAPI]. *)
Definition client_of (requestConfig : CreateRequestConfig) : Client.Client :=
  let client := new_Client requestConfig in
  let client :=
    fold_left (fun c h => use_request c (request_stage h))
              (requestHandlers requestConfig) client in
  let client :=
    fold_left (fun c h => use_response c (response_stage h))
              (responseHandlers requestConfig) client in
  use_response client error_stage.

(** One API function of [attachAPI]: [None] when the call is outside the
    embedding (see [fill] and [request_config]). *)
Definition api_function (client : Client.Client) (apiConfig : APIConfig)
    (params : option arguments) (options : option CallOptions)
    (ev : Client.terminal) : option Client.exchange :=
  match api_call apiConfig params options with
  | None => None
  | Some call =>
      match request_config call with
      | None => None
      | Some config => Some (Client.request JSON_parse client config ev)
      end
  end.

Definition attachAPI (client : Client.Client) (apis : list (string * APIConfig))
    : list (string * (option arguments -> option CallOptions ->
                      Client.terminal -> option Client.exchange)) :=
  List.map (fun api => (fst api, api_function client (snd api))) apis.

Definition createRequestClient (requestConfig : CreateRequestConfig) :=
  attachAPI (client_of requestConfig) (apis requestConfig).

End WithPlatform.

End Api.

(* ===================================================================== *)
(** * Vocabulary of the properties *)
(* ===================================================================== *)

Module Spec.
Import Js Helper.

(** A base URL ends with a slash. *)
Definition ends_with_slash (b : string) : bool :=
  match srev b with
  | String c _ => is_slash c
  | EmptyString => false
  end.

(** The values of the lines of a header blob that carry the name [key], in
    the order of the lines. *)
Definition values_of (key : string) (lines : list string) : list string :=
  List.map line_val (List.filter (fun l => seqb (line_key l) key) lines).

(** What one more value does to the entry of [key]: the body of the loop
    of [parseHeaders], seen from one key. [o] is the own property; a name
    the object inherits reads as truthy without one, and [__proto__] never
    becomes one. *)
Definition update (key : string) (o : option hval) (val : string) : option hval :=
  let truthy :=
    match o with
    | Some _ => present o
    | None => bool_decide (is_Some (inherited_text key))
    end in
  if truthy && ignores_duplicate key then o
  else if seqb key "__proto__" then o
  else if seqb key "set-cookie" then
    match o with
    | Some (HList l) => Some (HList (l ++ [val]))
    | Some (HStr s) => if seqb s EmptyString then Some (HList [val]) else o
    | None => Some (HList [val])
    end
  else
    match o with
    | Some (HStr s) =>
        if seqb s EmptyString then Some (HStr val)
        else Some (HStr (s +:+ ", " +:+ val))
    | Some (HList _) => o
    | None =>
        match inherited_text key with
        | Some text => Some (HStr (text +:+ ", " +:+ val))
        | None => Some (HStr val)
        end
    end.

Definition comma_join (acc v : string) : string := acc +:+ ", " +:+ v.

(** The data of the response an exchange resolved to. *)
Definition data_of (r : Client.exchange) : option payload :=
  match Client.outcome r with
  | Fulfilled (Some resp) => Some (Client.resp_data resp)
  | _ => None
  end.

(** The transport was opened. *)
Definition opened (cs : list Client.xhr_call) : bool :=
  existsb (fun c => match c with Client.Open _ _ _ => true | _ => false end) cs.

(** [send] was called with [undefined]. *)
Definition sent_undefined (cs : list Client.xhr_call) : bool :=
  existsb (fun c => match c with Client.Send b => is_undefined b | _ => false end) cs.

Definition protocol_error : error := Error "Error" "Unsupported protocol".

(** The status text of the response a promise fulfilled with. *)
Definition status_text_of (p : settled (option Client.ReqeustResponse)) : option string :=
  match p with
  | Fulfilled (Some resp) => Some (Client.statusText resp)
  | _ => None
  end.

(** The header object the implicit last request stage has in hand when it
    decides on the content type: the headers of the config (none is the
    empty object), overridden for a [json] response type, with the two
    names normalised. *)
Definition prepared_headers (config : Client.RequestConfig) : headers_t :=
  let hs := match Client.headers config with Some h => h | None => [] end in
  let hs :=
    if bool_decide (Client.responseType config = Some "json")
    then hset (hset hs "Accept" (VStr "application/json"))
              "Content-Type" (VStr "application/json")
    else hs in
  normalizeHeaderName (normalizeHeaderName hs "Accept") "Content-Type".

(** The full URL [_request] resolves for a config. *)
Definition full_path (cfg : Client.RequestConfig) : string :=
  buildFullPath
    (match Client.baseURL cfg with Some b => b | None => EmptyString end)
    (Client.url cfg).

(** ** Vocabulary of the further properties *)

(** The code units [encode] can write: the unreserved ones, the percent
    sign of an escape, and the six it puts back. *)
Definition is_query_safe (c : ascii) : bool :=
  is_unreserved c ||
  existsb (fun n => (code c =? n)%N) [37; 58; 36; 44; 43; 91; 93]%N.

(** The code units that structure a URL's query: [&], [=], [?], [#] and
    the space. *)
Definition is_query_delimiter (c : ascii) : bool :=
  existsb (fun n => (code c =? n)%N) [38; 61; 63; 35; 32]%N.

Definition amp : ascii := ascii_of_N 38.

(** The [key=value] parts [buildURL] makes of the entries of [params]. *)
Definition query_parts (entries : list (string * value)) : list string :=
  List.concat (List.map query_entry entries).

Definition no_amp (s : string) : bool :=
  all_chars (fun c => negb (code c =? code amp)%N) s.

(** What [parseHeaders] keeps of the values of one name: nothing for
    [__proto__], all the values for [set-cookie], for a name of
    [ignoreDuplicateOf] the first value that is not empty, for
    [constructor] the text of [Object] and then all the values, for any
    other name the values from the first non-empty one on. *)
Definition nonempty (s : string) : bool := negb (seqb s EmptyString).

Definition first_nonempty (vals : list string) : string :=
  match List.filter nonempty vals with
  | v :: _ => v
  | [] => EmptyString
  end.

Fixpoint drop_empty (vals : list string) : list string :=
  match vals with
  | [] => []
  | v :: rest => if nonempty v then vals else drop_empty rest
  end.

Definition entry_of (key : string) (vals : list string) : option hval :=
  match vals with
  | [] => None
  | _ =>
      if seqb key "__proto__" then None
      else if seqb key "set-cookie" then Some (HList vals)
      else if ignores_duplicate key then Some (HStr (first_nonempty vals))
      else
        match inherited_text key with
        | Some text => Some (HStr (join ", " (text :: vals)))
        | None => Some (HStr (join ", " (drop_empty vals)))
        end
  end.

(** A slot whose [onRejected] throws what it is given, or an empty slot. *)
Definition rethrows {T} (h : option (Client.handler T)) : Prop :=
  match h with
  | Some h => forall e, Client.rejected h e = Rejected e
  | None => True
  end.

(** Kinds of calls on the transport, and the verbs it is opened with. *)
Definition is_timeout_call (c : Client.xhr_call) : bool :=
  match c with Client.SetTimeout _ => true | _ => false end.

Definition is_setting_call (c : Client.xhr_call) : bool :=
  match c with
  | Client.SetRequestHeader _ _ | Client.SetResponseType _ => true
  | _ => false
  end.

Definition verbs : list string :=
  ["GET"; "DELETE"; "HEAD"; "OPTIONS"; "POST"; "PUT"; "PATCH"].

(** A header object has a property of that name; and the object an
    optional [headers] stands for, [headers || {}]. *)
Definition has_key (h : headers_t) (key : string) : bool :=
  existsb (fun kv => seqb (fst kv) key) h.

Definition header_object (o : option headers_t) : headers_t :=
  match o with Some h => h | None => [] end.

(** A string without its last code unit: [s.slice(0, -1)]. *)
Definition without_last (s : string) : string := stake (slen s - 1) s.


Definition not_colon (c : ascii) : bool := negb (code c =? 58)%N.

(** The name a placeholder stands for: the placeholder without its colon. *)
Definition key_of (placeholder : string) : string := sdrop 1 placeholder.

(** The arguments that none of the placeholders names. *)
Definition unused (placeholders : list string) (args : Api.arguments)
    : Api.arguments :=
  List.filter
    (fun kv => negb (existsb (seqb (fst kv)) (map key_of placeholders))) args.









End Spec.

(* ===================================================================== *)
(** * Inputs of the scenarios *)
(* ===================================================================== *)

Module Scenario.
Import Js Helper.

Definition nl : string := String newline EmptyString.

(** [{"name":"a"}] as a value, and the text [{"ok":true}]. *)
Definition name_a : value := VObj [("name", VStr "a")].
Definition ok_text : string := "{" +:+ dq +:+ "ok" +:+ dq +:+ ":true}".
Definition ok_value : value := VObj [("ok", VBool true)].

(** [new Client({baseURL: "http://h", headers: {Accept: "application/json"}})]. *)
Definition h_options : Client.RequetConstructor :=
  {| Client.ctor_baseURL := Some "http://h";
     Client.ctor_headers := Some [("Accept", VStr "application/json")];
     Client.ctor_timeout := None;
     Client.ctor_responseType := None |}.

(** The transport completes with status 200 and the body [{"ok":true}]. *)
Definition ok_200 : Client.terminal :=
  Client.Loaded {| Client.xhr_status := 200;
                   Client.xhr_statusText := "OK";
                   Client.xhr_responseText := ok_text;
                   Client.xhr_response := Plain VNull;
                   Client.xhr_allResponseHeaders := EmptyString |}.

(** A [JSON.parse] that gives up with a [RangeError], as an engine does
    when the text nests deeper than its stack allows. *)
Definition range_error : error := Error "RangeError" "Maximum call stack size exceeded".
Definition range_parse (text : string) : completion value := Throw range_error.

(** A request for one URL and nothing else. *)
Definition plain_get (url : string) : Client.RequestConfig :=
  {| Client.baseURL := None; Client.headers := None; Client.timeout := None;
     Client.responseType := None; Client.url := url; Client.method := None;
     Client.params := None; Client.data := Plain VUndefined |}.

(** [{a: [1,2], b: null, c: "x"}]. *)
Definition abc_params : list (string * value) :=
  [("a", VArr [VNum 1; VNum 2]); ("b", VNull); ("c", VStr "x")].

(** A header blob whose first [Content-Length] line has no value. *)
Definition blob_empty_length : string :=
  "Set-Cookie: a=1" +:+ nl +:+ "Content-Length:" +:+ nl +:+
  "Set-Cookie: b=2" +:+ nl +:+ "Content-Length: 5".

(** A header blob with two cookies, a repeated length, a repeated [Vary]
    and lines named as the two properties the result object inherits. *)
Definition blob_inherited : string :=
  "Set-Cookie: a=1" +:+ nl +:+ "Content-Length: 5" +:+ nl +:+
  "Constructor: x" +:+ nl +:+ "Vary: Accept" +:+ nl +:+
  "set-cookie: b=2" +:+ nl +:+ "__proto__: z" +:+ nl +:+
  "Content-Length: 7" +:+ nl +:+ "vary: Origin" +:+ nl +:+
  "constructor: y".


(** Three stages on integers: add one, double, add ten. *)
Definition stage (f : Z -> Z) : Client.handler Z :=
  {| Client.fulfilled := fun x => Fulfilled (f x);
     Client.rejected := fun e => Rejected e |}.
Definition stageA : Client.handler Z := stage (fun x => x + 1).
Definition stageB : Client.handler Z := stage (fun x => x * 2).
Definition stageC : Client.handler Z := stage (fun x => x + 10).

(** A response stage that rewrites the status text. *)
Definition relabel : Client.handler (option Client.ReqeustResponse) :=
  {| Client.fulfilled := fun r =>
       Fulfilled
         (match r with
          | Some r => Some {| Client.resp_data := Client.resp_data r;
                              Client.status := Client.status r;
                              Client.statusText := "seen";
                              Client.resp_headers := Client.resp_headers r;
                              Client.config := Client.config r |}
          | None => None
          end);
     Client.rejected := fun e => Rejected e |}.

(** A, B and C are registered, a fold starts and runs A, B is ejected, and
    the fold runs its two other jobs. *)
Definition inflight_run : Client.world Z :=
  Client.steps Client.idle
    [Client.EUse stageA; Client.EUse stageB; Client.EUse stageC;
     Client.EStart [] (Fulfilled 0); Client.EJob; Client.EEject 1;
     Client.EJob; Client.EJob].

(** The same, the fold starting after the eject. *)
Definition fresh_run : Client.world Z :=
  Client.steps Client.idle
    [Client.EUse stageA; Client.EUse stageB; Client.EUse stageC;
     Client.EEject 1; Client.EStart [] (Fulfilled 0);
     Client.EJob; Client.EJob].

(** A response chain with one stage and one ejected slot after it, held by
    a client of either implementation. *)
Definition tombstoned_chain : list (option (Client.handler (option Client.ReqeustResponse))) :=
  [Some relabel; None].

Definition client_with hs : Client.Client :=
  {| Client.defaultOptions := Client.initial_defaultOptions;
     Client.request_interceptors := [];
     Client.response_interceptors := hs |}.

Definition draft_with hs : Draft.Client :=
  {| Draft.defaultOptions := Client.initial_defaultOptions;
     Draft.request_interceptors := [];
     Draft.response_interceptors := hs |}.

Definition a_response : Client.ReqeustResponse :=
  {| Client.resp_data := Plain (VStr "body"); Client.status := 200;
     Client.statusText := "OK"; Client.resp_headers := ∅;
     Client.config := plain_get "/r" |}.

(** ** Inputs of the further properties *)

(** A request stage that throws, registered without an [onRejected]. *)
Definition no_token : error := Error "Error" "no token".

Definition failing_stage : Client.handler (option Client.RequestConfig) :=
  {| Client.fulfilled := fun _ => Rejected no_token;
     Client.rejected := Client.noop |}.

(** A client that holds that stage. *)
Definition guarded_client (JSON_parse : string -> completion value) : Client.Client :=
  let c := Client.constructor JSON_parse h_options in
  {| Client.defaultOptions := Client.defaultOptions c;
     Client.request_interceptors :=
       fst (Client.use (Client.request_interceptors c) failing_stage);
     Client.response_interceptors := Client.response_interceptors c |}.

(** A request that carries two headers of its own. *)
Definition get_with_headers : Client.RequestConfig :=
  {| Client.baseURL := None;
     Client.headers := Some [("Accept", VStr "text/csv"); ("X-Trace", VStr "1")];
     Client.timeout := None; Client.responseType := None;
     Client.url := "/r"; Client.method := None;
     Client.params := None; Client.data := Plain VUndefined |}.

(** A config of [createRequestClient] with no headers: one response
    handler, which answers every response with [undefined]. *)
Definition created : Api.CreateRequestConfig :=
  {| Api.cfg_baseURL := "http://h";
     Api.cfg_headers := None;
     Api.requestHandlers := [];
     Api.responseHandlers := [fun _ => Fulfilled None];
     Api.cfg_timeout := None;
     Api.cfg_responseType := None;
     Api.apis := [("user", Api.PathConfig "GET /users/:id")] |}.

End Scenario.

(* ===================================================================== *)
(** * Properties *)
(* ===================================================================== *)

Import Js Helper.

(** ** Strings *)

Lemma sapp_cons c (a b : string) : String c a +:+ b = String c (a +:+ b).
Proof. reflexivity. Qed.

Lemma sapp_nil (b : string) : EmptyString +:+ b = b.
Proof. reflexivity. Qed.

Lemma sapp_assoc (a b c : string) : (a +:+ b) +:+ c = a +:+ (b +:+ c).
Proof. induction a as [|x a IH]; [done|]. by rewrite !sapp_cons, IH. Qed.

Lemma sapp_empty_r (a : string) : a +:+ EmptyString = a.
Proof. induction a as [|x a IH]; [done|]. by rewrite sapp_cons, IH. Qed.

Lemma sapp_nonempty (a b : string) : a <> EmptyString -> a +:+ b <> EmptyString.
Proof. destruct a; [done|]. by rewrite sapp_cons. Qed.

Lemma srev_onto_app s acc : srev_onto s acc = srev s +:+ acc.
Proof.
  unfold srev. revert acc.
  induction s as [|c r IH]; intros acc; simpl; [done|].
  rewrite (IH (String c acc)), (IH (String c EmptyString)).
  by rewrite sapp_assoc.
Qed.

Lemma srev_app a b : srev (a +:+ b) = srev b +:+ srev a.
Proof.
  induction a as [|x a IH].
  - by rewrite sapp_nil, sapp_empty_r.
  - rewrite sapp_cons. unfold srev at 1. simpl.
    rewrite srev_onto_app, IH, sapp_assoc.
    f_equal. unfold srev at 2. simpl. by rewrite srev_onto_app.
Qed.

Lemma srev_involutive s : srev (srev s) = s.
Proof.
  induction s as [|c r IH]; [done|].
  unfold srev at 2. simpl. by rewrite srev_onto_app, srev_app, IH.
Qed.

Lemma seqb_true a b : seqb a b = true <-> a = b.
Proof. unfold seqb. apply bool_decide_eq_true. Qed.

Lemma seqb_false a b : seqb a b = false <-> a <> b.
Proof. unfold seqb. apply bool_decide_eq_false. Qed.

Lemma seqb_neq a b : a <> b -> seqb a b = false.
Proof. apply seqb_false. Qed.

(** ** The URL resolver *)

Lemma strip_trailing_noop b :
  Spec.ends_with_slash b = false -> drop_while_end is_slash b = b.
Proof.
  unfold Spec.ends_with_slash, drop_while_end. intros H.
  destruct (srev b) as [|c r] eqn:E; simpl.
  - rewrite <- E. apply srev_involutive.
  - rewrite H, <- E. apply srev_involutive.
Qed.

Lemma strip_leading_done s : starts_with "/" (drop_while is_slash s) = false.
Proof.
  induction s as [|c r IH]; [done|]. simpl.
  destruct (is_slash c) eqn:E; [done|].
  change (starts_with "/" (String c r)) with ((47 =? code c)%N && true).
  unfold is_slash in E. by rewrite N.eqb_sym, E.
Qed.

(** C8, as the code has it. For every non-empty base URL [b] that does not
    end with a slash and every non-empty relative path [p] (one that
    [isAbsoluteURL] rejects), [buildFullPath b p] is [b], one slash, and [p]
    without its leading slashes; the stripped path does not start with a
    slash, so exactly one slash separates the two parts. *)
Theorem resolve_joins_with_one_slash (b p : string) :
  b <> EmptyString ->
  Spec.ends_with_slash b = false ->
  isAbsoluteURL p = false ->
  p <> EmptyString ->
  buildFullPath b p = b +:+ "/" +:+ drop_while is_slash p /\
  starts_with "/" (drop_while is_slash p) = false.
Proof.
  intros Hb Hs Ha Hp. split; [|apply strip_leading_done].
  unfold buildFullPath, combineURLs.
  rewrite Ha, (seqb_neq _ _ Hb), (seqb_neq _ _ Hp). simpl.
  by rewrite strip_trailing_noop.
Qed.

Lemma resolve_joins_with_one_slash_witness :
  buildFullPath "http://h" "//r/s" = "//r/s" /\
  buildFullPath "http://h" "/r/s" = "http://h" +:+ "/" +:+ drop_while is_slash "/r/s" /\
  starts_with "/" (drop_while is_slash "/r/s") = false.
Proof.
  split; [reflexivity|].
  apply (resolve_joins_with_one_slash "http://h" "/r/s");
    [discriminate | reflexivity | reflexivity | discriminate].
Defined.

(** C8, as stated, fails on the empty path, which is relative: the guard
    of [combineURLs] returns the base URL alone, with no slash added. *)
Lemma resolve_empty_path_adds_no_slash :
  isAbsoluteURL EmptyString = false /\
  buildFullPath "http://h" EmptyString = "http://h" /\
  buildFullPath "http://h" EmptyString
    <> "http://h" +:+ "/" +:+ drop_while is_slash EmptyString.
Proof. repeat split. discriminate. Qed.

(** ** The query string *)

Lemma null_entry_has_no_part key : query_entry (key, VNull) = [].
Proof. reflexivity. Qed.

(** C4, as the code has it. [buildURL "/x" {a: [1,2], b: null, c: "x"}] is
    [/x?a[]=1&a[]=2&c=x]: the keys keep their order, the null-valued key is
    dropped, the array fans out under the key with the suffix [[]], whose
    brackets [encode] writes unescaped, and the separator is [?]. Whatever
    the URL and the other entries, a null-valued entry leaves the result
    as it is without it. *)
Theorem buildURL_abc :
  buildURL "/x" (Some Scenario.abc_params) = "/x?a[]=1&a[]=2&c=x" /\
  encode "a[]" = "a[]" /\
  (forall url before key after,
     buildURL url (Some (before ++ (key, VNull) :: after))
     = buildURL url (Some (before ++ after))).
Proof.
  split; [reflexivity|]. split; [reflexivity|].
  intros url before key after. unfold buildURL.
  by rewrite !map_app, !concat_app, map_cons, concat_cons, null_entry_has_no_part.
Qed.

(** C4, as stated, fails: the brackets of the array suffix are not
    percent-escaped in the result. *)
Lemma query_brackets_stay_unescaped :
  buildURL "/x" (Some Scenario.abc_params) <> "/x?a%5B%5D=1&a%5B%5D=2&c=x".
Proof. discriminate. Qed.

(** ** parseHeaders *)

Section ParseHeaders.
Import Spec.

(** One line changes the entry of its own key only, and changes it the
    way [update] says. *)
Lemma parse_line_lookup (parsed : gmap string hval) line k :
  k <> EmptyString ->
  parse_line parsed line !! k =
  if seqb (line_key line) k
  then update k (parsed !! k) (line_val line)
  else parsed !! k.
Proof.
  intros Hk. unfold parse_line, update, reads_truthy, assign.
  destruct (seqb (line_key line) k) eqn:E.
  - apply seqb_true in E. rewrite E, (seqb_neq k EmptyString Hk).
    destruct (seqb k "__proto__") eqn:Ep.
    + apply seqb_true in Ep. subst k.
      change (seqb "__proto__" "set-cookie") with false.
      by repeat case_match.
    + destruct (parsed !! k) as [[s|l]|] eqn:Hp;
        repeat (case_match; rewrite ?lookup_insert_eq; try done).
  - apply seqb_false in E.
    destruct (parsed !! line_key line) as [[s|l]|];
      repeat (case_match; rewrite ?lookup_insert_ne by done; try done).
Qed.

Lemma fold_parse_lookup lines (parsed : gmap string hval) k :
  k <> EmptyString ->
  fold_left parse_line lines parsed !! k =
  fold_left (update k) (values_of k lines) (parsed !! k).
Proof.
  intros Hk. revert parsed.
  induction lines as [|l ls IH]; intros parsed; [done|].
  simpl. rewrite IH, parse_line_lookup by done.
  unfold values_of. simpl. by destruct (seqb (line_key l) k).
Qed.

(** The entry of a key is the fold of [update] over the values of its
    lines. *)
Lemma parseHeaders_lookup blob k :
  k <> EmptyString ->
  parseHeaders blob !! k =
  fold_left (update k) (values_of k (split blob newline)) None.
Proof.
  intros Hk. unfold parseHeaders.
  destruct (seqb blob EmptyString) eqn:E.
  - apply seqb_true in E. subst blob. rewrite lookup_empty.
    change (split EmptyString newline) with [EmptyString].
    unfold values_of. simpl.
    change (line_key EmptyString) with EmptyString.
    assert (seqb EmptyString k = false) as -> by (apply seqb_false; congruence).
    done.
  - by rewrite fold_parse_lookup, lookup_empty.
Qed.

Lemma update_cookies vals l :
  fold_left (update "set-cookie") vals (Some (HList l)) = Some (HList (l ++ vals)).
Proof.
  revert l. induction vals as [|v vs IH]; intros l; simpl.
  - by rewrite app_nil_r.
  - change (update "set-cookie" (Some (HList l)) v) with (Some (HList (l ++ [v]))).
    by rewrite IH, <- app_assoc.
Qed.

Lemma update_first_wins k s vals :
  ignores_duplicate k = true -> s <> EmptyString ->
  fold_left (update k) vals (Some (HStr s)) = Some (HStr s).
Proof.
  intros Hi Hs. induction vals as [|v vs IH]; [done|].
  simpl. unfold update at 2. simpl.
  by rewrite (seqb_neq _ _ Hs), Hi.
Qed.

Lemma update_joins k s vals :
  ignores_duplicate k = false -> k <> "set-cookie" -> k <> "__proto__" ->
  s <> EmptyString ->
  fold_left (update k) vals (Some (HStr s)) = Some (HStr (fold_left comma_join vals s)).
Proof.
  intros Hi Hc Hp. revert s. induction vals as [|v vs IH]; intros s Hs; [done|].
  simpl. unfold update at 2. simpl.
  rewrite Hi, andb_false_r, (seqb_neq _ _ Hc), (seqb_neq _ _ Hp), (seqb_neq _ _ Hs).
  apply IH. by apply sapp_nonempty.
Qed.

Lemma join_fold sep pre v vals :
  pre +:+ join sep (v :: vals) =
  fold_left (fun a x => a +:+ sep +:+ x) vals (pre +:+ v).
Proof.
  revert pre v. induction vals as [|w ws IH]; intros pre v; [done|].
  change (join sep (v :: w :: ws)) with (v +:+ sep +:+ join sep (w :: ws)).
  simpl. rewrite <- (sapp_assoc (pre +:+ v) sep w), <- IH.
  by rewrite !sapp_assoc.
Qed.

(** No line makes an own property [__proto__]. *)
Lemma update_proto vals o : fold_left (update "__proto__") vals o = o.
Proof.
  induction vals as [|v vs IH]; [done|]. simpl.
  assert (update "__proto__" o v = o) as ->; [|exact IH].
  unfold update. change (ignores_duplicate "__proto__") with false.
  by rewrite andb_false_r.
Qed.

(** The first [constructor] line joins its value onto the text of the
    function it reads, and the later ones join theirs onto that. *)
Lemma update_constructor v vs :
  fold_left (update "constructor") (v :: vs) None
  = Some (HStr (join ", " (Object_text :: v :: vs))).
Proof.
  simpl.
  change (update "constructor" None v)
    with (Some (HStr ((Object_text +:+ ", ") +:+ v))).
  rewrite update_joins; [|done|done|done|].
  - do 2 f_equal. symmetry.
    change (join ", " (Object_text :: v :: vs))
      with (Object_text +:+ ", " +:+ join ", " (v :: vs)).
    rewrite <- sapp_assoc. apply (join_fold ", " (Object_text +:+ ", ") v vs).
  - by destruct v.
Qed.
End ParseHeaders.




(** ** stringifySafely *)

(** C5. For every string [s]: when [JSON.parse s] returns,
    [stringifySafely s] is [trim s]; when it throws a [SyntaxError],
    [stringifySafely s] is [JSON.stringify s], the quoted string; when it
    throws anything else, [stringifySafely] throws the same. And the
    payload transformer, given a non-empty string that parses and headers
    that declare [application/json], returns the trimmed string: nothing
    is encoded twice. *)
Theorem stringifySafely_string (JSON_parse : string -> completion value) (s : string) :
  (forall v, JSON_parse s = Return v ->
     stringifySafely JSON_parse (VStr s) = Return (VStr (trim s))) /\
  (forall e, JSON_parse s = Throw e -> name e = "SyntaxError" ->
     stringifySafely JSON_parse (VStr s) = Return (stringify_value (VStr s)) /\
     stringify_value (VStr s) = VStr (quote s)) /\
  (forall e, JSON_parse s = Throw e -> name e <> "SyntaxError" ->
     stringifySafely JSON_parse (VStr s) = Throw e) /\
  (forall v, JSON_parse s = Return v -> s <> EmptyString ->
     Client.transformRequest JSON_parse (Plain (VStr s))
       [("Content-Type", VStr "application/json")]
     = Return (Plain (VStr (trim s)), [("Content-Type", VStr "application/json")])).
Proof.
  repeat split.
  - intros v Hp. simpl. by rewrite Hp.
  - simpl. match goal with Hp : JSON_parse s = _, Hn : name _ = _ |- _ =>
             by rewrite Hp, Hn end.
  - intros e Hp Hn. simpl. by rewrite Hp, (seqb_neq _ _ Hn).
  - intros v Hp Hs. unfold Client.transformRequest.
    change (normalizeHeaderName
              (normalizeHeaderName [("Content-Type", VStr "application/json")] "Accept")
              "Content-Type")
      with [("Content-Type", VStr "application/json")].
    simpl. rewrite (seqb_neq _ _ Hs). simpl. by rewrite Hp.
Qed.

Lemma stringifySafely_string_witness :
  stringifySafely JsonLite.JSON_parse (VStr " [1, 2] ") = Return (VStr "[1, 2]") /\
  stringifySafely JsonLite.JSON_parse (VStr "a b") = Return (stringify_value (VStr "a b")) /\
  stringifySafely Scenario.range_parse (VStr "[[1]]") = Throw Scenario.range_error.
Proof.
  split; [|split].
  - apply (proj1 (stringifySafely_string JsonLite.JSON_parse " [1, 2] ")
             (VArr [VNum 1; VNum 2])).
    reflexivity.
  - apply (proj1 (proj2 (stringifySafely_string JsonLite.JSON_parse "a b"))
             JsonLite.syntax_error); reflexivity.
  - apply (proj1 (proj2 (proj2 (stringifySafely_string Scenario.range_parse "[[1]]")))).
    + reflexivity.
    + discriminate.
Defined.

(** ** The protocol gate of _request *)

Lemma existsb_seqb (x : string) (l : list string) :
  existsb (seqb x) l = true <-> In x l.
Proof.
  rewrite existsb_exists. split.
  - intros (y & Hy & E). apply seqb_true in E. by subst.
  - intros H. exists x. split; [done|]. by apply seqb_true.
Qed.

Lemma opened_app a b : Spec.opened (a ++ b) = Spec.opened a || Spec.opened b.
Proof. apply existsb_app. Qed.

(** C6. Let [protocol] be what [parseProtocol] reads off the full URL of a
    config. When it is present and not one of http, https, file and blob,
    [_request] rejects with the protocol error and [open] is not among the
    calls made on the transport. When it is absent or one of the four, the
    promise is not rejected with the protocol error and the transport is
    opened. *)
Theorem unsupported_protocol_rejects (cfg : Client.RequestConfig) (ev : Client.terminal) :
  let protocol := parseProtocol (Spec.full_path cfg) in
  let sent := Client._request (Some cfg) ev in
  (protocol <> EmptyString -> ~ In protocol ["http"; "https"; "file"; "blob"] ->
   Client.outcome sent = Rejected Spec.protocol_error /\
   Spec.opened (Client.calls sent) = false) /\
  (protocol = EmptyString \/ In protocol ["http"; "https"; "file"; "blob"] ->
   Client.outcome sent <> Rejected Spec.protocol_error /\
   Spec.opened (Client.calls sent) = true).
Proof.
  intros protocol sent. subst sent. unfold Client._request.
  fold (Spec.full_path cfg). fold protocol.
  split.
  - intros Hne Hin.
    rewrite (seqb_neq _ _ Hne).
    assert (existsb (seqb protocol) Client.supported_protocols = false) as ->.
    { apply not_true_is_false. by rewrite existsb_seqb. }
    simpl. split; [done|].
    destruct (Client.timeout cfg) as [t|]; [destruct (t =? 0)|]; done.
  - intros H.
    assert (negb (seqb protocol EmptyString)
            && negb (existsb (seqb protocol) Client.supported_protocols) = false) as ->.
    { destruct H as [->|H]; [done|].
      apply (existsb_seqb protocol Client.supported_protocols) in H.
      rewrite H. apply andb_false_r. }
    simpl. split.
    + destruct ev; discriminate.
    + rewrite opened_app. apply orb_true_iff. by right.
Qed.

Lemma unsupported_protocol_rejects_witness :
  (Client.outcome (Client._request (Some (Scenario.plain_get "ftp://x/y")) Scenario.ok_200)
     = Rejected Spec.protocol_error /\
   Spec.opened (Client.calls
     (Client._request (Some (Scenario.plain_get "ftp://x/y")) Scenario.ok_200)) = false) /\
  (Client.outcome (Client._request (Some (Scenario.plain_get "https://x/y")) Scenario.ok_200)
     <> Rejected Spec.protocol_error /\
   Spec.opened (Client.calls
     (Client._request (Some (Scenario.plain_get "https://x/y")) Scenario.ok_200)) = true).
Proof.
  split.
  - apply (proj1 (unsupported_protocol_rejects (Scenario.plain_get "ftp://x/y")
                    Scenario.ok_200)).
    + discriminate.
    + cbn. intros [H|[H|[H|[H|[]]]]]; discriminate H.
  - apply (proj2 (unsupported_protocol_rejects (Scenario.plain_get "https://x/y")
                    Scenario.ok_200)).
    right. cbn. right. by left.
Defined.

(** ** The body on the path through request *)

Lemma hget_hset h k v : hget (hset h k v) k = v.
Proof.
  induction h as [|[k' v'] h IH]; simpl.
  - by rewrite (proj2 (seqb_true k k) eq_refl).
  - destruct (seqb k' k) eqn:E; simpl; by rewrite E.
Qed.

Lemma setContentTypeIfUnset_set h val :
  hget (setContentTypeIfUnset h val) "Content-Type" <> VUndefined /\
  (hget h "Content-Type" = VUndefined ->
   hget (setContentTypeIfUnset h val) "Content-Type" = VStr val) /\
  (hget h "Content-Type" <> VUndefined -> setContentTypeIfUnset h val = h).
Proof.
  unfold setContentTypeIfUnset.
  destruct (hget h "Content-Type") eqn:E; rewrite ?hget_hset, ?E; repeat split; congruence.
Qed.

Section Body.
Variable JSON_parse : string -> completion value.

Lemma stringifySafely_defined v w :
  truthy v = true -> stringifySafely JSON_parse v = Return w -> w <> VUndefined.
Proof.
  intros Ht. unfold stringifySafely, stringify_value.
  destruct v; try discriminate; simpl; try (intros [= <-]; discriminate).
  - destruct b; intros [= <-]; discriminate.
  - destruct (JSON_parse s) as [u|e]; [intros [= <-]; discriminate|].
    destruct (negb (seqb (name e) "SyntaxError")); [discriminate|].
    intros [= <-]; discriminate.
Qed.

Lemma transformRequest_defined body hs body' hs' :
  payload_truthy body = true ->
  Client.transformRequest JSON_parse body hs = Return (body', hs') ->
  is_undefined body' = false.
Proof.
  intros Ht. unfold Client.transformRequest. rewrite Ht. simpl.
  destruct body as [v|k tag].
  - simpl in *.
    destruct (isObject v || _).
    + destruct (stringifySafely JSON_parse v) as [w|e] eqn:E; [|discriminate].
      intros [= <- _]. apply (stringifySafely_defined _ _ Ht) in E.
      by destruct w.
    + intros [= <- _]. by destruct v.
  - destruct k; simpl; intros [= <- _]; done.
Qed.

Lemma header_calls_defined body (hs : headers_t) :
  is_undefined body = false ->
  concat (map snd (map (Client.header_calls body) hs)) = [].
Proof.
  intros Hd. induction hs as [|[k v] hs IH]; [done|].
  simpl. rewrite Hd. simpl. exact IH.
Qed.

Lemma header_calls_send body (hs : headers_t) :
  Spec.sent_undefined (concat (map fst (map (Client.header_calls body) hs))) = false.
Proof.
  induction hs as [|[k v] hs IH]; [done|].
  simpl. unfold Spec.sent_undefined in *. rewrite existsb_app, IH, orb_false_r.
  destruct (is_undefined body && _); [done|].
  by induction (match v with VArr xs => xs | _ => [v] end).
Qed.

Lemma _request_never_sends_undefined cfg ev :
  Spec.sent_undefined (Client.calls (Client._request cfg ev)) = false.
Proof.
  destruct cfg as [cfg|]; [|done]. unfold Client._request.
  assert (Ht : forall o : option Z, Spec.sent_undefined
            match o with Some t => if t =? 0 then [] else [Client.SetTimeout t] | None => [] end = false).
  { intros [t|]; [destruct (t =? 0)|]; done. }
  case_match; simpl; [apply Ht|].
  unfold Spec.sent_undefined in *. rewrite existsb_app, Ht. simpl.
  rewrite existsb_app. fold (Spec.sent_undefined (concat (map fst (map (Client.header_calls (Client.data cfg)) (match Client.headers cfg with Some h => h | None => [] end))))).
  rewrite header_calls_send. simpl. rewrite existsb_app. simpl.
  repeat case_match; simpl; try done;
    by destruct (Client.data cfg) as [[]|].
Qed.

Lemma _request_keeps_headers cfg ev :
  is_undefined (Client.data cfg) = false ->
  Client.deleted (Client._request (Some cfg) ev) = [].
Proof.
  intros Hd. unfold Client._request. case_match; [done|]. simpl.
  by apply header_calls_defined.
Qed.
End Body.

Section Path.
Variable JSON_parse : string -> completion value.
Abbreviation request := (Client.request JSON_parse).
Abbreviation berforeRequest := (Client.berforeRequest JSON_parse).
Abbreviation beforeSend_fulfilled := (Client.beforeSend_fulfilled JSON_parse).

Lemma berforeRequest_last c config :
  berforeRequest c config =
  match fold_left Client.chain_step (Client.request_interceptors c) (Fulfilled (Some config)) with
  | Fulfilled mid => beforeSend_fulfilled mid
  | Rejected e => Fulfilled None
  end.
Proof.
  unfold Client.berforeRequest. rewrite fold_left_app. simpl.
  by destruct (fold_left _ _ _).
Qed.

Lemma beforeSend_defined mid final :
  beforeSend_fulfilled mid = Fulfilled (Some final) ->
  is_undefined (Client.data final) = false.
Proof.
  destruct mid as [config|]; [|discriminate]. unfold Client.beforeSend_fulfilled.
  set (body := if payload_truthy (Client.data config) then _ else _).
  assert (payload_truthy body = true) as Hb.
  { subst body. by destruct (payload_truthy (Client.data config)) eqn:E. }
  destruct (Client.transformRequest _ _ _) as [[b' h']|e] eqn:E; [|discriminate].
  intros [= <-]. simpl. by apply (transformRequest_defined _ _ _ _ _ Hb E).
Qed.

Lemma request_keeps_content_type c cfg ev :
  Client.deleted (request c cfg ev) = [] /\
  Spec.sent_undefined (Client.calls (request c cfg ev)) = false.
Proof.
  unfold Client.request.
  destruct (berforeRequest c (Client.merge_config c cfg)) as [mergeConfig|e] eqn:E;
    [|done].
  cbn [Client.deleted Client.calls].
  split; [|apply _request_never_sends_undefined].
  destruct mergeConfig as [final|]; [|done].
  apply _request_keeps_headers.
  rewrite berforeRequest_last in E.
  destruct (fold_left _ _ _) as [mid|e]; [|discriminate].
  by apply (beforeSend_defined mid).
Qed.
End Path.

Lemma opened_timeout (o : option Z) :
  Spec.opened match o with
              | Some t => if t =? 0 then [] else [Client.SetTimeout t]
              | None => []
              end = false.
Proof. destruct o as [t|]; [destruct (t =? 0)|]; done. Qed.

Lemma opened_sends cfg ev :
  Spec.opened (Client.calls (Client._request (Some cfg) ev)) = true ->
  In (Client.Send (if payload_truthy (Client.data cfg)
                   then Client.data cfg else Plain VNull))
     (Client.calls (Client._request (Some cfg) ev)).
Proof.
  unfold Client._request. case_match; cbn [Client.calls].
  - by rewrite opened_timeout.
  - intros _. rewrite !in_app_iff. do 4 right. by left.
Qed.

(** C10. On the path through [Client.request]: when the config that reaches
    the implicit last request stage carries no data, the stage fulfils with
    a config whose data is the text of the empty object and whose headers
    are the prepared headers with [Content-Type: application/json] set if
    it was unset, so that [Content-Type] is set afterwards; when the
    transport is then opened, that text is what [send] is given. And for
    every call through [Client.request], whatever the interceptors and the
    data, no header is deleted by [_request] and [send] is never given
    [undefined]. *)
Theorem no_data_sends_empty_object (JSON_parse : string -> completion value)
    (c : Client.Client) (cfg : Client.RequestConfig) (ev : Client.terminal) :
  let sent := Client.request JSON_parse c cfg ev in
  (forall mid,
     fold_left Client.chain_step (Client.request_interceptors c)
       (Fulfilled (Some (Client.merge_config c cfg))) = Fulfilled (Some mid) ->
     Client.data mid = Plain VUndefined ->
     exists final hs,
       Client.berforeRequest JSON_parse c (Client.merge_config c cfg)
         = Fulfilled (Some final) /\
       Client.data final = Plain (VStr "{}") /\
       Client.headers final = Some hs /\
       hs = setContentTypeIfUnset (Spec.prepared_headers mid) "application/json" /\
       hget hs "Content-Type" <> VUndefined /\
       (Spec.opened (Client.calls sent) = true ->
        In (Client.Send (Plain (VStr "{}"))) (Client.calls sent))) /\
  Client.deleted sent = [] /\
  Spec.sent_undefined (Client.calls sent) = false.
Proof.
  intros sent. split; [|apply request_keeps_content_type].
  intros mid Hmid Hdata.
  assert (Client.berforeRequest JSON_parse c (Client.merge_config c cfg) =
          Fulfilled (Some {| Client.baseURL := Client.baseURL mid;
                             Client.headers := Some (setContentTypeIfUnset (Spec.prepared_headers mid) "application/json");
                             Client.timeout := Client.timeout mid;
                             Client.responseType := Client.responseType mid;
                             Client.url := Client.url mid;
                             Client.method := Client.method mid;
                             Client.params := Client.params mid;
                             Client.data := Plain (VStr "{}") |})) as Hb.
  { rewrite berforeRequest_last, Hmid. unfold Client.beforeSend_fulfilled.
    rewrite Hdata. reflexivity. }
  eexists _, _. split; [exact Hb|]. split; [done|]. split; [done|]. split; [done|].
  split; [apply setContentTypeIfUnset_set|].
  subst sent. unfold Client.request. rewrite Hb. cbn [Client.calls].
  intros Ho. by apply opened_sends in Ho.
Qed.

Lemma no_data_sends_empty_object_witness :
  let c := Client.constructor JsonLite.JSON_parse Scenario.h_options in
  let cfg := Client.params_config Client.GET "/r" None None in
  exists final hs,
    Client.berforeRequest JsonLite.JSON_parse c (Client.merge_config c cfg)
      = Fulfilled (Some final) /\
    Client.data final = Plain (VStr "{}") /\
    Client.headers final = Some hs /\
    hs = setContentTypeIfUnset
           (Spec.prepared_headers (Client.merge_config c cfg)) "application/json" /\
    hget hs "Content-Type" <> VUndefined /\
    (Spec.opened (Client.calls
       (Client.request JsonLite.JSON_parse c cfg Scenario.ok_200)) = true ->
     In (Client.Send (Plain (VStr "{}")))
        (Client.calls (Client.request JsonLite.JSON_parse c cfg Scenario.ok_200))).
Proof.
  intros c cfg.
  apply (proj1 (no_data_sends_empty_object JsonLite.JSON_parse c cfg Scenario.ok_200)
           (Client.merge_config c cfg)); reflexivity.
Defined.

(** ** Interceptor chains *)

Section Chain.
Context {T : Type}.
Implicit Types (m : list (option (Client.handler T))) (p : settled T).

Lemma registered_app m1 m2 :
  Client.registered (m1 ++ m2) = Client.registered m1 ++ Client.registered m2.
Proof. unfold Client.registered. apply omap_app. Qed.

(** The fold of the code settles to what the registered callbacks give,
    run in order. *)
Lemma fold_registered m p :
  fold_left Client.chain_step m p =
  fold_left Client.then_handler (Client.registered m) p.
Proof.
  revert p. induction m as [|[h|] m IH]; intros p; simpl; [done| |]; apply IH.
Qed.

Lemma jobs_add j k (f : Client.fold T) :
  Client.jobs (j + k) f = Client.jobs k (Client.jobs j f).
Proof. revert f. induction j as [|j IH]; intros f; simpl; [done|apply IH]. Qed.

Lemma jobs_all pend p past :
  Client.jobs (length pend)
    {| Client.pending := pend; Client.current := p; Client.ran := past |} =
  {| Client.pending := [];
     Client.current := fold_left Client.then_handler pend p;
     Client.ran := past ++ pend |}.
Proof.
  revert p past. induction pend as [|h pend IH]; intros p past; simpl.
  - by rewrite app_nil_r.
  - unfold Client.job at 1. simpl. by rewrite IH, <- app_assoc.
Qed.

Lemma steps_cons (w : Client.world T) e es :
  Client.steps w (e :: es) = Client.steps (Client.step w e) es.
Proof. reflexivity. Qed.

Lemma steps_app (w : Client.world T) es1 es2 :
  Client.steps w (es1 ++ es2) = Client.steps (Client.steps w es1) es2.
Proof. apply fold_left_app. Qed.

Lemma steps_jobs (w : Client.world T) n :
  Client.steps w (replicate n Client.EJob) =
  {| Client.manager := Client.manager w;
     Client.inflight := Client.jobs n <$> Client.inflight w |}.
Proof.
  revert w. induction n as [|n IH]; intros w.
  - by destruct w as [m [f|]].
  - change (replicate (S n) Client.EJob) with (@Client.EJob T :: replicate n Client.EJob).
    rewrite steps_cons, IH. simpl. by destruct (Client.inflight w).
Qed.

Lemma use_app m h : Client.use m h = (m ++ [Some h], length m).
Proof. unfold Client.use. f_equal. rewrite length_app. simpl. lia. Qed.

Lemma eject_middle m (x : option (Client.handler T)) rest :
  Client.eject (m ++ x :: rest) (length m) = m ++ None :: rest.
Proof.
  unfold Client.eject. rewrite length_app. simpl.
  destruct (Nat.ltb_spec (length m) (length m + S (length rest))); [|lia].
  rewrite insert_app_r_alt by lia. by rewrite Nat.sub_diag.
Qed.

Lemma use_three m (A B C : Client.handler T) :
  let m1 := fst (Client.use m A) in
  let m2 := fst (Client.use m1 B) in
  fst (Client.use m2 C) = m ++ [Some A; Some B; Some C] /\
  snd (Client.use m A) = length m /\
  snd (Client.use m1 B) = S (length m) /\
  snd (Client.use m2 C) = S (S (length m)).
Proof.
  intros m1 m2. subst m1 m2.
  repeat (rewrite use_app; cbn [fst snd]).
  rewrite <- !app_assoc, !length_app. simpl. repeat split; lia.
Qed.

Lemma eject_second m (A B C : Client.handler T) :
  Client.eject (m ++ [Some A; Some B; Some C]) (S (length m)) =
  m ++ [Some A; None; Some C].
Proof.
  change (m ++ [Some A; Some B; Some C]) with (m ++ [Some A] ++ Some B :: [Some C]).
  rewrite app_assoc.
  replace (S (length m)) with (length (m ++ [Some A]))
    by (rewrite length_app; simpl; lia).
  by rewrite eject_middle, <- app_assoc.
Qed.
End Chain.

(** C2, as the code has it. Register A, B and C with [use] on any manager
    and pass the handle of B to [eject]. The array keeps its length, the
    slot of B holds [null], the handles of A and C still lead to A and C
    and the slots registered before are untouched. A fold that starts
    after the eject settles to what A and then C give, followed by the
    stages the fold appends, and the callbacks it runs are those of the
    stages registered before, of A and of C: B is not run. A fold that was
    started before the eject has one job registered per stage of that
    moment: whenever the eject comes between its jobs, it still runs A, B
    and C, in that order. *)
Theorem eject_skips_stage {T : Type} (m0 : list (option (Client.handler T)))
    (A B C : Client.handler T)
    (trailing : list (option (Client.handler T))) (init : settled T) :
  let m1 := fst (Client.use m0 A) in
  let hA := snd (Client.use m0 A) in
  let m2 := fst (Client.use m1 B) in
  let hB := snd (Client.use m1 B) in
  let m3 := fst (Client.use m2 C) in
  let hC := snd (Client.use m2 C) in
  let m4 := Client.eject m3 hB in
  (length m4 = length m3 /\ m4 !! hA = Some (Some A) /\ m4 !! hB = Some None /\
   m4 !! hC = Some (Some C) /\
   forall i, (i < length m0)%nat -> m4 !! i = m0 !! i) /\
  fold_left Client.chain_step (m4 ++ trailing) init =
    fold_left Client.chain_step trailing
      (Client.then_handler
         (Client.then_handler (fold_left Client.chain_step m0 init) A) C) /\
  Client.inflight
    (Client.steps {| Client.manager := m4; Client.inflight := None |}
       (Client.EStart trailing init ::
        replicate (length (Client.registered (m4 ++ trailing))) Client.EJob)) =
  Some {| Client.pending := [];
          Client.current := fold_left Client.chain_step (m4 ++ trailing) init;
          Client.ran := Client.registered m0 ++ [A; C] ++ Client.registered trailing |} /\
  (forall j k, (j + k = length (Client.registered (m3 ++ trailing)))%nat ->
   Client.steps {| Client.manager := m3; Client.inflight := None |}
     (Client.EStart trailing init :: replicate j Client.EJob ++
      Client.EEject hB :: replicate k Client.EJob) =
   {| Client.manager := m4;
      Client.inflight :=
        Some {| Client.pending := [];
                Client.current := fold_left Client.chain_step (m3 ++ trailing) init;
                Client.ran := Client.registered m0 ++ [A; B; C]
                              ++ Client.registered trailing |} |}).
Proof.
  intros m1 hA m2 hB m3 hC m4.
  destruct (use_three m0 A B C) as (E3 & EA & EB & EC).
  fold m1 m2 m3 hA hB hC in E3, EA, EB, EC.
  assert (E4 : m4 = m0 ++ [Some A; None; Some C]).
  { subst m4. rewrite E3, EB. apply eject_second. }
  clearbody m1 hA m2 hB m3 hC m4. subst.
  split; [|split; [|split]].
  - rewrite !length_app. simpl. split; [done|].
    split; [by rewrite lookup_app_r, Nat.sub_diag by lia|].
    split; [rewrite lookup_app_r by lia;
            by replace (S (length m0) - length m0)%nat with 1%nat by lia|].
    split; [rewrite lookup_app_r by lia;
            by replace (S (S (length m0)) - length m0)%nat with 2%nat by lia|].
    intros i Hi. by rewrite lookup_app_l.
  - by rewrite <- app_assoc, !fold_left_app.
  - rewrite steps_cons, steps_jobs. simpl. rewrite jobs_all. simpl.
    rewrite <- fold_registered. do 2 f_equal.
    by rewrite <- app_assoc, registered_app.
  - intros j k Hjk.
    rewrite steps_cons, steps_app, steps_jobs, steps_cons, steps_jobs. simpl.
    rewrite eject_second, <- jobs_add, Hjk, jobs_all. simpl.
    rewrite <- fold_registered. do 3 f_equal.
    by rewrite <- app_assoc, registered_app.
Qed.

Lemma eject_skips_stage_witness :
  Client.eject [Some Scenario.stageC; Some Scenario.stageA; Some Scenario.stageB;
                Some Scenario.stageC] 2 !! 0%nat
    = Some (Some Scenario.stageC) /\
  Client.steps
    {| Client.manager := [Some Scenario.stageC; Some Scenario.stageA;
                          Some Scenario.stageB; Some Scenario.stageC];
       Client.inflight := None |}
    [Client.EStart [] (Fulfilled 0); Client.EJob; Client.EJob; Client.EEject 2;
     Client.EJob; Client.EJob] =
  {| Client.manager := [Some Scenario.stageC; Some Scenario.stageA; None;
                        Some Scenario.stageC];
     Client.inflight :=
       Some {| Client.pending := [];
               Client.current := Fulfilled 32;
               Client.ran := [Scenario.stageC; Scenario.stageA; Scenario.stageB;
                              Scenario.stageC] |} |}.
Proof.
  destruct (eject_skips_stage [Some Scenario.stageC] Scenario.stageA Scenario.stageB
              Scenario.stageC [] (Fulfilled 0))
    as ((_ & _ & _ & _ & Hkept) & _ & _ & Hflight).
  split.
  - apply (Hkept 0%nat). simpl. lia.
  - apply (Hflight 2%nat 2%nat). reflexivity.
Defined.

(** C2, as stated, fails for a fold in flight: A has run, B is ejected
    before its job runs, and B runs all the same; the fold settles to 12,
    where A and then C alone give 11. A fold started after the eject
    settles to 11. *)
Lemma inflight_fold_runs_ejected_stage :
  Client.manager Scenario.inflight_run
    = [Some Scenario.stageA; None; Some Scenario.stageC] /\
  Client.inflight Scenario.inflight_run
    = Some {| Client.pending := [];
              Client.current := Fulfilled 12;
              Client.ran := [Scenario.stageA; Scenario.stageB; Scenario.stageC] |} /\
  Client.then_handler (Client.then_handler (Fulfilled 0) Scenario.stageA) Scenario.stageC
    = Fulfilled 11 /\
  Client.current <$> Client.inflight Scenario.fresh_run = Some (Fulfilled 11) /\
  Client.current <$> Client.inflight Scenario.inflight_run
    <> Client.current <$> Client.inflight Scenario.fresh_run.
Proof. repeat split. discriminate. Qed.

(** ** The two response folds *)

(** On a chain without an ejected slot the fold of the draft and the fold
    of client.ts are the same. *)
Lemma folds_agree_without_tombstone {T : Type}
    (hs : list (Client.handler T)) (promise request : settled T) :
  fold_left (Draft.after_step promise) (List.map Some hs) request =
  fold_left Client.chain_step (List.map Some hs) request.
Proof.
  revert request. induction hs as [|h hs IH]; intros request; [done|]. apply IH.
Qed.

(** C3, on the code. The chain holds one stage, which rewrites the status
    text, and an ejected slot after it. The fold of client.ts hands the
    accumulated promise on at the ejected slot and settles to the rewritten
    response; the fold of the draft returns the promise it was called with
    and settles to the response as the transport made it. The two folds
    differ. *)
Theorem draft_afterRequest_restarts_at_tombstone :
  Spec.status_text_of
    (Client.afterRequest (Scenario.client_with Scenario.tombstoned_chain)
       (Fulfilled (Some Scenario.a_response))) = Some "seen" /\
  Spec.status_text_of
    (Draft.afterRequest (Scenario.draft_with Scenario.tombstoned_chain)
       (Fulfilled (Some Scenario.a_response))) = Some "OK" /\
  Draft.afterRequest (Scenario.draft_with Scenario.tombstoned_chain)
    (Fulfilled (Some Scenario.a_response))
  <> Client.afterRequest (Scenario.client_with Scenario.tombstoned_chain)
       (Fulfilled (Some Scenario.a_response)).
Proof.
  split; [reflexivity|]. split; [reflexivity|].
  intros H. apply (f_equal Spec.status_text_of) in H. discriminate H.
Qed.

(** ** The verb shortcuts *)

(** The six other shortcuts issue their own verb. *)
Lemma verbs_issue_their_method (JSON_parse : string -> completion value)
    (c : Client.Client) url params data opts ev :
  Client.get JSON_parse c url params opts ev
    = Client.request JSON_parse c (Client.params_config Client.GET url params opts) ev /\
  Client.delete JSON_parse c url params opts ev
    = Client.request JSON_parse c (Client.params_config Client.DELETE url params opts) ev /\
  Client.head JSON_parse c url params opts ev
    = Client.request JSON_parse c (Client.params_config Client.HEAD url params opts) ev /\
  Client.post JSON_parse c url data opts ev
    = Client.request JSON_parse c (Client.data_config Client.POST url data opts) ev /\
  Client.put JSON_parse c url data opts ev
    = Client.request JSON_parse c (Client.data_config Client.PUT url data opts) ev /\
  Client.patch JSON_parse c url data opts ev
    = Client.request JSON_parse c (Client.data_config Client.PATCH url data opts) ev.
Proof. repeat split. Qed.

(** C9, on the code. [options] issues the request [head] issues: its
    method is HEAD, and for [options("/r")] on the client of the
    end-to-end scenario the transport is opened with HEAD, not OPTIONS. *)
Theorem options_issues_HEAD (JSON_parse : string -> completion value)
    (c : Client.Client) url params opts ev :
  Client.options JSON_parse c url params opts ev
    = Client.head JSON_parse c url params opts ev /\
  Client.options JSON_parse c url params opts ev
    = Client.request JSON_parse c (Client.params_config Client.HEAD url params opts) ev /\
  Client.calls
    (Client.options JSON_parse (Client.constructor JSON_parse Scenario.h_options)
       "/r" None None ev)
  = [Client.Open "HEAD" "http://h/r" true;
     Client.SetRequestHeader "Accept" "application/json";
     Client.SetRequestHeader "Content-Type" "application/json";
     Client.Send (Plain (VStr "{}"))].
Proof. repeat split. Qed.

(** ** The end-to-end scenario *)

(** C1, on the code. The client has the base URL [http://h] and the default
    header [Accept: application/json]; [post("/r", {name: "a"})] opens the
    transport with POST and [http://h/r], sets [Content-Type:
    application/json] and sends the JSON text of the object. The transport
    completes with status 200 and the text [{"ok":true}]: the promise
    fulfils with a response whose data is that text, not the object it
    parses to, because the config carries no response type and the
    response stage parses only under the response type [json]. *)
Theorem post_scenario_leaves_text (JSON_parse : string -> completion value) :
  let c := Client.constructor JSON_parse Scenario.h_options in
  let r := Client.post JSON_parse c "/r" (Plain Scenario.name_a) None Scenario.ok_200 in
  Client.calls r
  = [Client.Open "POST" "http://h/r" true;
     Client.SetRequestHeader "Accept" "application/json";
     Client.SetRequestHeader "Content-Type" "application/json";
     Client.Send (Plain (stringify_value Scenario.name_a))] /\
  stringify_value Scenario.name_a
  = VStr ("{" +:+ dq +:+ "name" +:+ dq +:+ ":" +:+ dq +:+ "a" +:+ dq +:+ "}") /\
  Spec.data_of r = Some (Plain (VStr Scenario.ok_text)) /\
  Spec.data_of r <> Some (Plain Scenario.ok_value) /\
  JsonLite.JSON_parse Scenario.ok_text = Return Scenario.ok_value.
Proof. repeat split. discriminate. Qed.

(** With the response type [json] configured on the client, the same call
    and the same answer give the parsed object. *)
Lemma post_scenario_with_json_type :
  let c := Client.constructor JsonLite.JSON_parse
             {| Client.ctor_baseURL := Some "http://h";
                Client.ctor_headers := Some [("Accept", VStr "application/json")];
                Client.ctor_timeout := None;
                Client.ctor_responseType := Some "json" |} in
  Spec.data_of
    (Client.post JsonLite.JSON_parse c "/r" (Plain Scenario.name_a) None Scenario.ok_200)
  = Some (Plain Scenario.ok_value).
Proof. reflexivity. Qed.

(* ===================================================================== *)
(** * Further properties *)
(* ===================================================================== *)

Import Spec.

(** ** More on the URL resolver *)

Lemma drop_while_app_stop f (a b : string) c :
  all_chars f a = true -> f c = false ->
  drop_while f (a +:+ String c b) = String c b.
Proof.
  intros Ha Hc. induction a as [|x a IH].
  - rewrite sapp_nil. simpl. by rewrite Hc.
  - rewrite sapp_cons. simpl in *. apply andb_prop in Ha as [-> Ha]. by apply IH.
Qed.

Lemma strip_trailing_slash b :
  drop_while_end is_slash (b +:+ "/") = drop_while_end is_slash b.
Proof. unfold drop_while_end. by rewrite srev_app. Qed.

Lemma strip_trailing_clean b : ends_with_slash (drop_while_end is_slash b) = false.
Proof.
  unfold ends_with_slash, drop_while_end. rewrite srev_involutive.
  induction (srev b) as [|c r IH]; [done|]. simpl.
  destruct (is_slash c) eqn:E; [exact IH|]. by rewrite E.
Qed.

(** X1. For every base URL and every non-empty relative URL,
    [combineURLs] is the base without its trailing slashes, one slash, and
    the relative URL without its leading slashes; the first part does not
    end with a slash and the last does not start with one. One more slash
    at the end of the base, or at the start of the relative URL, changes
    nothing. *)
Theorem combineURLs_one_slash (b r : string) :
  r <> EmptyString ->
  combineURLs b r = drop_while_end is_slash b +:+ "/" +:+ drop_while is_slash r /\
  ends_with_slash (drop_while_end is_slash b) = false /\
  starts_with "/" (drop_while is_slash r) = false /\
  combineURLs (b +:+ "/") r = combineURLs b r /\
  combineURLs b ("/" +:+ r) = combineURLs b r.
Proof.
  intros Hr. unfold combineURLs. rewrite (seqb_neq _ _ Hr). simpl.
  split; [done|]. split; [apply strip_trailing_clean|].
  split; [apply strip_leading_done|].
  split; [by rewrite strip_trailing_slash|].
  reflexivity.
Qed.

Lemma combineURLs_one_slash_witness :
  combineURLs "http://h//" "//r/s" = "http://h" +:+ "/" +:+ "r/s" /\
  combineURLs ("http://h/" +:+ "/") "r" = combineURLs "http://h/" "r".
Proof.
  destruct (combineURLs_one_slash "http://h//" "//r/s") as (H & _);
    [discriminate|].
  destruct (combineURLs_one_slash "http://h/" "r") as (_ & _ & _ & H' & _);
    [discriminate|].
  split; [exact H|exact H'].
Defined.

(** X2. A URL made of a scheme (a letter, then letters, digits, [+], [-]
    or [.]) and [://], or one that starts with [//], comes out of
    [buildFullPath] untouched whatever the base URL is; and with the empty
    base URL every URL does. *)
Theorem absolute_url_bypasses_base (b scheme rest : string) (c : ascii) :
  is_alpha c = true -> all_chars is_scheme_char scheme = true ->
  buildFullPath b (String c scheme +:+ "://" +:+ rest)
    = String c scheme +:+ "://" +:+ rest /\
  buildFullPath b ("//" +:+ rest) = "//" +:+ rest /\
  buildFullPath EmptyString rest = rest.
Proof.
  intros Hc Hs. split; [|split].
  - unfold buildFullPath.
    assert (isAbsoluteURL (String c scheme +:+ "://" +:+ rest) = true) as ->.
    { unfold isAbsoluteURL. apply orb_true_iff. right.
      rewrite sapp_cons, Hc. simpl.
      change ("://" +:+ rest) with (String ":" ("//" +:+ rest)).
      by rewrite drop_while_app_stop. }
    by rewrite andb_false_r.
  - unfold buildFullPath.
    assert (isAbsoluteURL ("//" +:+ rest) = true) as -> by done.
    by rewrite andb_false_r.
  - reflexivity.
Qed.

Lemma absolute_url_bypasses_base_witness :
  buildFullPath "http://h" ("ws+x" +:+ "://" +:+ "a/b") = "ws+x" +:+ "://" +:+ "a/b".
Proof.
  apply (absolute_url_bypasses_base "http://h" "s+x" "a/b" "w"); reflexivity.
Defined.

(** ** parseProtocol *)

Lemma code_inj c n : code c = n -> c = ascii_of_N n.
Proof. intros <-. unfold code. by rewrite ascii_N_embedding. Qed.

Lemma protocol_tail_head rest :
  protocol_tail rest = true ->
  exists c r, rest = String c r /\ is_protocol_char c = false.
Proof.
  destruct rest as [|c r]; [done|]. intros H. exists c, r. split; [done|].
  assert (code c = 58%N \/ code c = 47%N) as [E|E].
  { unfold protocol_tail in H.
    change (starts_with "://" (String c r))
      with ((58 =? code c)%N && starts_with "//" r) in H.
    change (starts_with "//" (String c r))
      with ((47 =? code c)%N && starts_with "/" r) in H.
    change (starts_with ":" (String c r)) with ((58 =? code c)%N && true) in H.
    destruct (N.eqb_spec 58 (code c)); [by left|].
    destruct (N.eqb_spec 47 (code c)); [by right|]. done. }
  - by rewrite (code_inj _ _ E).
  - by rewrite (code_inj _ _ E).
Qed.

Lemma protocol_tail_colon rest : protocol_tail (":" +:+ rest) = true.
Proof.
  unfold protocol_tail.
  change (starts_with "://" (":" +:+ rest)) with (starts_with "//" rest).
  destruct (starts_with "//" rest); reflexivity.
Qed.

Lemma stake_app_exact (p r : string) : stake (slen p) (p +:+ r) = p.
Proof.
  induction p as [|c p IH]; [by destruct r|].
  rewrite sapp_cons. simpl. by rewrite IH.
Qed.

Lemma sdrop_app_exact (p r : string) : sdrop (slen p) (p +:+ r) = r.
Proof. induction p as [|c p IH]; [done|]. rewrite sapp_cons. exact IH. Qed.

(** A group that reaches past a code unit outside the class is refused. *)
Lemma group_past_stop (p r : string) c n :
  is_protocol_char c = false -> (slen p < n)%nat ->
  (slen (stake n (p +:+ String c r)) =? n)%nat
  && all_chars is_protocol_char (stake n (p +:+ String c r)) = false.
Proof.
  intros Hc. revert n. induction p as [|x p IH]; intros n Hn.
  - rewrite sapp_nil. destruct n as [|n]; [simpl in Hn; lia|].
    simpl. rewrite Hc. apply andb_false_r.
  - destruct n as [|n]; [simpl in Hn; lia|]. rewrite sapp_cons. simpl in *.
    specialize (IH n ltac:(lia)).
    apply andb_false_iff in IH as [IH|IH].
    + change (S (slen (stake n (p +:+ String c r))) =? S n)%nat
        with (slen (stake n (p +:+ String c r)) =? n)%nat. by rewrite IH.
    + rewrite IH. by rewrite !andb_false_r.
Qed.

Lemma protocol_match_found (p rest : string) n :
  p <> EmptyString -> all_chars is_protocol_char p = true ->
  protocol_tail rest = true -> (slen p <= n)%nat ->
  protocol_match n (p +:+ rest) = Some p.
Proof.
  intros Hp Hall Htail. destruct (protocol_tail_head _ Htail) as (c & r & -> & Hc).
  induction n as [|n IH]; intros Hn.
  - destruct p; [done|simpl in Hn; lia].
  - destruct (decide (slen p = S n)) as [E|E].
    + cbn [protocol_match].
      by rewrite <- E, stake_app_exact, sdrop_app_exact, Nat.eqb_refl, Hall, Htail.
    + cbn [protocol_match]. rewrite group_past_stop by (done || lia). simpl.
      apply IH. lia.
Qed.

Lemma protocol_match_none_head url n :
  match url with
  | String c _ => is_protocol_char c = false
  | EmptyString => True
  end ->
  protocol_match n url = None.
Proof.
  intros H. induction n as [|n IH]; [done|]. cbn [protocol_match].
  destruct url as [|c r]; simpl; [exact IH|]. rewrite H.
  rewrite andb_false_r. exact IH.
Qed.

(** X3. For every run [p] of one to twenty-five letters, digits,
    underscores, [-] or [+], [parseProtocol] reads [p] off a URL that
    continues with [://], with [:] or with [//]; off a URL that starts with
    a slash, and off the empty URL, it reads no protocol. *)
Theorem parseProtocol_reads_scheme (p rest : string) :
  p <> EmptyString -> (slen p <= 25)%nat ->
  all_chars is_protocol_char p = true ->
  parseProtocol (p +:+ "://" +:+ rest) = p /\
  parseProtocol (p +:+ ":" +:+ rest) = p /\
  parseProtocol (p +:+ "//" +:+ rest) = p /\
  parseProtocol ("/" +:+ rest) = EmptyString /\
  parseProtocol EmptyString = EmptyString.
Proof.
  intros Hp Hlen Hall. unfold parseProtocol.
  rewrite (protocol_match_found p ("://" +:+ rest)) by (assumption || reflexivity).
  rewrite (protocol_match_found p (":" +:+ rest))
    by (assumption || apply protocol_tail_colon).
  rewrite (protocol_match_found p ("//" +:+ rest)) by (assumption || reflexivity).
  rewrite (protocol_match_none_head ("/" +:+ rest)) by done.
  repeat split.
Qed.

Lemma parseProtocol_reads_scheme_witness :
  parseProtocol ("chrome-extension" +:+ "://" +:+ "id/page") = "chrome-extension" /\
  parseProtocol ("mailto" +:+ ":" +:+ "a@b") = "mailto".
Proof.
  destruct (parseProtocol_reads_scheme "chrome-extension" "id/page")
    as (H & _); [discriminate | simpl; lia | reflexivity |].
  destruct (parseProtocol_reads_scheme "mailto" "a@b")
    as (_ & H' & _); [discriminate | simpl; lia | reflexivity |].
  split; [exact H|exact H'].
Defined.

(** ** The alphabet of encode *)

Lemma all_chars_app f (a b : string) :
  all_chars f (a +:+ b) = all_chars f a && all_chars f b.
Proof.
  induction a as [|c a IH]; [done|]. rewrite sapp_cons. simpl.
  by rewrite IH, andb_assoc.
Qed.

Lemma all_chars_sdrop f n (s : string) :
  all_chars f s = true -> all_chars f (sdrop n s) = true.
Proof.
  revert s. induction n as [|n IH]; intros [|c s]; simpl; try done.
  intros [_ H]%andb_prop. by apply IH.
Qed.

Lemma all_chars_impl (f g : ascii -> bool) (s : string) :
  (forall c, f c = true -> g c = true) ->
  all_chars f s = true -> all_chars g s = true.
Proof.
  intros Hfg. induction s as [|c t IH]; [done|]. simpl.
  intros [Hc Ht]%andb_prop. by rewrite (Hfg c Hc), (IH Ht).
Qed.

(** A replacement brings in the code units of the replacement text and
    no other. *)
Lemma replace_all_chars f ci p r s fuel :
  all_chars f r = true -> all_chars f s = true ->
  all_chars f (replace_all ci p r s fuel) = true.
Proof.
  intros Hr. revert s. induction fuel as [|k IH]; intros s Hs; [done|].
  destruct s as [|c t]; [done|]. cbn [replace_all].
  destruct (starts_with_gen ci p (String c t)).
  - rewrite all_chars_app, Hr. simpl. apply IH. by apply all_chars_sdrop.
  - simpl in *. apply andb_prop in Hs as [-> Hs]. by apply IH.
Qed.

Lemma encode_char_safe c : all_chars is_query_safe (encode_char c) = true.
Proof. destruct c as [[] [] [] [] [] [] [] []]; vm_compute; reflexivity. Qed.

Lemma encodeURIComponent_safe s :
  all_chars is_query_safe (encodeURIComponent s) = true.
Proof.
  induction s as [|c s IH]; [done|]. simpl.
  by rewrite all_chars_app, encode_char_safe, IH.
Qed.

Lemma delimiter_not_safe c : is_query_delimiter c = true -> is_query_safe c = false.
Proof. destruct c as [[] [] [] [] [] [] [] []]; vm_compute; congruence. Qed.

Lemma encode_safe s : all_chars is_query_safe (encode s) = true.
Proof.
  unfold encode, replace_g.
  repeat (apply replace_all_chars; [reflexivity|]). apply encodeURIComponent_safe.
Qed.

Lemma encode_no_delimiter s :
  all_chars (fun c => negb (is_query_delimiter c)) (encode s) = true.
Proof.
  apply (all_chars_impl is_query_safe); [|apply encode_safe].
  intros c Hc. destruct (is_query_delimiter c) eqn:E; [|done].
  apply delimiter_not_safe in E. congruence.
Qed.

(** X4. Whatever the text, [encode] writes only letters, digits, the marks
    [- _ . ! ~ * ' ( )], percent escapes and the six code units it puts
    back ([: $ , + [ ]]); it never writes [&], [=], [?], [#] or a space. *)
Theorem encode_alphabet (s : string) :
  all_chars is_query_safe (encode s) = true /\
  all_chars (fun c => negb (is_query_delimiter c)) (encode s) = true.
Proof. split; [apply encode_safe|apply encode_no_delimiter]. Qed.

(** ** Reading a query back *)

Lemma split_on_run c (a rest cur : string) :
  all_chars (fun x => negb (code x =? code c)%N) a = true ->
  split_on c (a +:+ rest) cur = split_on c rest (srev_onto a cur).
Proof.
  revert cur. induction a as [|x a IH]; intros cur H; [done|].
  rewrite sapp_cons. simpl in *. apply andb_prop in H as [Hx Ha].
  apply negb_true_iff in Hx. rewrite Hx. by apply IH.
Qed.

(** Splitting what [join] made, when no part holds the separator. *)
Lemma split_join c (parts : list string) :
  parts <> [] ->
  forallb (all_chars (fun x => negb (code x =? code c)%N)) parts = true ->
  split (join (String c EmptyString) parts) c = parts.
Proof.
  intros Hne. induction parts as [|p ps IH]; [done|]. clear Hne.
  intros [Hp Hps]%andb_prop. unfold split in *.
  destruct ps as [|q ps].
  - simpl. rewrite <- (sapp_empty_r p) at 1. rewrite split_on_run by done.
    simpl. fold (srev p). by rewrite srev_involutive.
  - change (join (String c EmptyString) (p :: q :: ps))
      with (p +:+ String c (join (String c EmptyString) (q :: ps))).
    rewrite split_on_run by done. simpl. rewrite N.eqb_refl.
    fold (srev p). rewrite srev_involutive. f_equal. by apply IH.
Qed.

Lemma query_part_no_amp key v : no_amp (query_part key v) = true.
Proof.
  unfold query_part, no_amp. rewrite !all_chars_app.
  assert (H : forall s,
             all_chars (fun c => negb (code c =? code amp)%N) (encode s) = true).
  { intros s. generalize (encode_no_delimiter s). apply all_chars_impl.
    intros [[] [] [] [] [] [] [] []]; vm_compute; congruence. }
  by rewrite !H.
Qed.

Lemma query_parts_no_amp entries : forallb no_amp (query_parts entries) = true.
Proof.
  unfold query_parts. induction entries as [|[k v] es IH]; [done|].
  simpl. rewrite forallb_app, IH, andb_true_r.
  unfold query_entry. destruct (is_nullish v); [done|].
  assert (H : forall key xs, forallb no_amp (map (query_part key) xs) = true).
  { intros key xs. induction xs as [|x xs IHx]; [done|].
    simpl. by rewrite query_part_no_amp, IHx. }
  destruct v; first [apply (H k [_]) | apply H].
Qed.

(** X5. When the entries of [params] make at least one part, [buildURL]
    returns the URL, the separator and a query, and splitting that query on
    [&] gives back the parts, one per scalar entry and one per element of
    an array entry, in order: no key and no value can break a part in
    two. *)
Theorem query_reads_back (url : string) (entries : list (string * value)) :
  query_parts entries <> [] ->
  exists query,
    buildURL url (Some entries)
      = url +:+ (if indexOf url "?" =? -1 then "?" else "&") +:+ query /\
    split query amp = query_parts entries.
Proof.
  intros Hne. exists (join "&" (query_parts entries)). split; [reflexivity|].
  apply (split_join amp); [done|apply query_parts_no_amp].
Qed.

Lemma query_reads_back_witness :
  exists query,
    buildURL "/x" (Some [("a&b", VArr [VStr "1&2"; VStr "k=v"]); ("c", VStr "x y")])
      = "/x" +:+ "?" +:+ query /\
    split query amp
      = query_parts [("a&b", VArr [VStr "1&2"; VStr "k=v"]); ("c", VStr "x y")].
Proof.
  apply (query_reads_back "/x"
           [("a&b", VArr [VStr "1&2"; VStr "k=v"]); ("c", VStr "x y")]).
  discriminate.
Defined.

(** X6. When every entry of [params] is null, undefined or an empty array
    (and so when [params] is the empty object), [buildURL] still appends
    the separator: the URL ends with a [?] or a [&] and nothing after
    it. *)
Theorem nothing_to_send_leaves_separator (url : string)
    (entries : list (string * value)) :
  Forall (fun e => is_nullish (snd e) = true \/ snd e = VArr []) entries ->
  buildURL url (Some entries)
  = url +:+ (if indexOf url "?" =? -1 then "?" else "&").
Proof.
  intros H. unfold buildURL.
  assert (List.concat (List.map query_entry entries) = []) as ->.
  { induction H as [|[k v] es Hv _ IH]; [done|]. simpl in *.
    destruct Hv as [Hn| ->]; [by rewrite Hn|exact IH]. }
  simpl. by rewrite sapp_empty_r.
Qed.

Lemma nothing_to_send_leaves_separator_witness :
  buildURL "/x?k=1" (Some [("a", VNull); ("b", VArr []); ("c", VUndefined)])
  = "/x?k=1" +:+ "&".
Proof.
  apply (nothing_to_send_leaves_separator "/x?k=1"
           [("a", VNull); ("b", VArr []); ("c", VUndefined)]).
  constructor; [by left|]. constructor; [by right|].
  constructor; [by left|]. constructor.
Defined.

(** ** Building a query in two steps *)






(** ** parseHeaders, every name *)

Lemma ignored_is_not_cookie k :
  ignores_duplicate k = true -> seqb k "set-cookie" = false.
Proof. intros H. apply seqb_false. intros ->. by vm_compute in H. Qed.

Lemma ignored_is_not_proto k :
  ignores_duplicate k = true -> seqb k "__proto__" = false.
Proof. intros H. apply seqb_false. intros ->. by vm_compute in H. Qed.

Lemma inherited_cases k :
  k = "constructor" \/ k = "__proto__" \/
  (inherited_text k = None /\ k <> "constructor" /\ k <> "__proto__").
Proof.
  unfold inherited_text.
  destruct (seqb k "constructor") eqn:Ec; [apply seqb_true in Ec; auto|].
  destruct (seqb k "__proto__") eqn:Ep; [apply seqb_true in Ep; auto|].
  apply seqb_false in Ec, Ep. auto.
Qed.

Lemma update_first_nonempty k vals :
  ignores_duplicate k = true ->
  fold_left (update k) vals (Some (HStr EmptyString))
  = Some (HStr (first_nonempty vals)).
Proof.
  intros Hi. pose proof (ignored_is_not_cookie k Hi) as Hc.
  pose proof (ignored_is_not_proto k Hi) as Hp.
  induction vals as [|v vs IH]; [done|].
  simpl. unfold update at 2. simpl. rewrite Hc, Hp.
  unfold first_nonempty. simpl. unfold nonempty at 1.
  destruct (seqb v EmptyString) eqn:E; simpl.
  - apply seqb_true in E. subst v. exact IH.
  - apply seqb_false in E. by apply update_first_wins.
Qed.

Lemma update_drop_empty k vals :
  ignores_duplicate k = false -> k <> "set-cookie" -> k <> "__proto__" ->
  fold_left (update k) vals (Some (HStr EmptyString))
  = Some (HStr (join ", " (drop_empty vals))).
Proof.
  intros Hi Hc Hp. induction vals as [|v vs IH]; [done|].
  simpl. unfold update at 2. simpl.
  rewrite (seqb_neq _ _ Hc), (seqb_neq _ _ Hp).
  unfold nonempty. destruct (seqb v EmptyString) eqn:E; simpl.
  - apply seqb_true in E. subst v. exact IH.
  - apply seqb_false in E. rewrite update_joins by done. do 2 f_equal.
    symmetry. apply (join_fold ", " EmptyString v vs).
Qed.

Lemma update_from_none k v :
  inherited_text k = None -> k <> "__proto__" ->
  update k None v
  = if seqb k "set-cookie" then Some (HList [v]) else Some (HStr v).
Proof.
  intros Hn Hp. unfold update. rewrite Hn, (seqb_neq _ _ Hp). simpl.
  by destruct (seqb k "set-cookie").
Qed.

Lemma parseHeaders_entry_of (blob k : string) :
  k <> EmptyString ->
  parseHeaders blob !! k = entry_of k (values_of k (split blob newline)).
Proof.
  intros Hk. rewrite parseHeaders_lookup by done.
  destruct (values_of k (split blob newline)) as [|v vs]; [done|].
  destruct (inherited_cases k) as [->|[->|(Hn & Hno & Hnp)]].
  - apply update_constructor.
  - apply update_proto.
  - simpl. rewrite update_from_none by done.
    unfold entry_of. rewrite (seqb_neq _ _ Hnp), Hn.
    destruct (seqb k "set-cookie") eqn:Ec.
    + apply seqb_true in Ec. subst k. apply (update_cookies vs [v]).
    + apply seqb_false in Ec.
      destruct (ignores_duplicate k) eqn:Ei.
      * destruct (seqb v EmptyString) eqn:Ev.
        -- apply seqb_true in Ev. subst v. by rewrite update_first_nonempty.
        -- unfold first_nonempty. simpl. unfold nonempty at 1. rewrite Ev. simpl.
           apply seqb_false in Ev. by apply update_first_wins.
      * replace (Some (HStr v)) with (update k (Some (HStr EmptyString)) v).
        -- by apply (update_drop_empty k (v :: vs)).
        -- unfold update. simpl.
           by rewrite (seqb_neq _ _ Ec), (seqb_neq _ _ Hnp).
Qed.

(** X8. For every header blob and every non-empty name, the entry
    [parseHeaders] stores is decided by the values of the lines that read
    as that name ([line_key]: the text before the first colon, trimmed and
    in lower case, or for a line with no colon the line without its last
    code unit), in the order of the lines. There is no entry when there is
    no such line, and never one for [__proto__]; for [set-cookie] the entry
    is the list of all the values; for a name of [ignoreDuplicateOf] the
    first value that is not empty (the empty string when all are); for
    [constructor] the text of the function [Object] and all the values,
    joined by a comma and a space; for any other name the values from the
    first non-empty one on, joined by a comma and a space. *)
Theorem parseHeaders_closed_form (blob k : string) :
  k <> EmptyString ->
  parseHeaders blob !! k = entry_of k (values_of k (split blob newline)).
Proof. apply parseHeaders_entry_of. Qed.

Lemma parseHeaders_closed_form_witness :
  parseHeaders Scenario.blob_empty_length !! "content-length"
  = entry_of "content-length"
      (values_of "content-length" (split Scenario.blob_empty_length newline)) /\
  entry_of "content-length" [EmptyString; "5"; "7"] = Some (HStr "5") /\
  entry_of "vary" [EmptyString; "a"; EmptyString; "b"] = Some (HStr "a, , b") /\
  entry_of "constructor" [EmptyString; "x"]
  = Some (HStr "function Object() { [native code] }, , x") /\
  entry_of "__proto__" ["z"] = None.
Proof.
  split; [|repeat split; reflexivity].
  apply (parseHeaders_closed_form Scenario.blob_empty_length "content-length").
  discriminate.
Defined.

(** ** The names parseHeaders stores *)

Lemma lower_char_idempotent c : lower_char (lower_char c) = lower_char c.
Proof. destruct c as [[] [] [] [] [] [] [] []]; reflexivity. Qed.

Lemma toLowerCase_idempotent s : toLowerCase (toLowerCase s) = toLowerCase s.
Proof.
  unfold toLowerCase. induction s as [|c s IH]; [done|].
  simpl. by rewrite lower_char_idempotent, IH.
Qed.

Lemma parse_line_no_empty_key (parsed : gmap string hval) line :
  parsed !! EmptyString = None -> parse_line parsed line !! EmptyString = None.
Proof.
  intros H. unfold parse_line, assign.
  destruct (seqb (line_key line) EmptyString) eqn:E; [done|].
  apply seqb_false in E.
  repeat (case_match; rewrite ?lookup_insert_ne by done; try done).
Qed.

Lemma parseHeaders_no_empty_key blob : parseHeaders blob !! EmptyString = None.
Proof.
  unfold parseHeaders. destruct (seqb blob EmptyString); [done|].
  assert (H : forall lines (parsed : gmap string hval),
             parsed !! EmptyString = None ->
             fold_left parse_line lines parsed !! EmptyString = None).
  { induction lines as [|l ls IH]; intros parsed Hp; [done|].
    simpl. apply IH. by apply parse_line_no_empty_key. }
  by apply H.
Qed.

Lemma values_of_nonempty k lines :
  values_of k lines <> [] <-> exists line, In line lines /\ line_key line = k.
Proof.
  unfold values_of. induction lines as [|l ls IH]; simpl.
  - split; [done|]. by intros (? & [] & _).
  - destruct (seqb (line_key l) k) eqn:E.
    + apply seqb_true in E. split; [|done]. intros _. exists l. auto.
    + apply seqb_false in E. rewrite IH. split.
      * intros (line & Hin & Hk). exists line. auto.
      * intros (line & [->|Hin] & Hk); [done|]. by exists line.
Qed.

(** Where [indexOf] finds the colon of a line. *)
Lemma colon_found (a b : string) i :
  all_chars not_colon a = true ->
  indexOf_from ":" (a +:+ ":" +:+ b) i = i + Z.of_nat (slen a).
Proof.
  revert i. induction a as [|c a IH]; intros i Ha.
  - rewrite sapp_nil. simpl. lia.
  - rewrite sapp_cons. simpl in Ha. apply andb_true_iff in Ha as [Hc Ha].
    unfold not_colon in Hc. apply negb_true_iff in Hc.
    cbn [indexOf_from].
    change (starts_with ":" (String c (a +:+ ":" +:+ b)))
      with ((code ":" =? code c)%N && true).
    rewrite N.eqb_sym. change (code ":") with 58%N. rewrite Hc. cbn [andb].
    rewrite (IH (i + 1) Ha). cbn [slen]. lia.
Qed.

Lemma colon_missing (line : string) i :
  all_chars not_colon line = true -> indexOf_from ":" line i = -1.
Proof.
  revert i. induction line as [|c r IH]; intros i Hl; [done|].
  simpl in Hl. apply andb_true_iff in Hl as [Hc Hr].
  unfold not_colon in Hc. apply negb_true_iff in Hc.
  cbn [indexOf_from].
  change (starts_with ":" (String c r)) with ((code ":" =? code c)%N && true).
  rewrite N.eqb_sym. change (code ":") with 58%N. rewrite Hc. cbn [andb].
  by apply IH.
Qed.

Lemma slen_app (a b : string) : slen (a +:+ b) = (slen a + slen b)%nat.
Proof.
  induction a as [|c a IH]; [by rewrite sapp_nil|].
  rewrite sapp_cons. simpl. by rewrite IH.
Qed.

Lemma line_key_colon (a b : string) :
  all_chars not_colon a = true ->
  line_key (a +:+ ":" +:+ b) = toLowerCase (trim a).
Proof.
  intros Ha. unfold line_key, indexOf. rewrite (colon_found a b 0 Ha).
  do 2 f_equal. unfold slice, clamp_index.
  rewrite slen_app.
  replace (0 <? 0) with false by done.
  replace (0 + Z.of_nat (slen a) <? 0) with false by (symmetry; apply Z.ltb_ge; lia).
  rewrite Z.min_l by lia. rewrite Z.min_l by lia.
  replace (Z.to_nat (0 + Z.of_nat (slen a) - 0)) with (slen a) by lia.
  apply stake_app_exact.
Qed.

Lemma line_key_no_colon (line : string) :
  all_chars not_colon line = true ->
  line_key line = toLowerCase (trim (without_last line)).
Proof.
  intros Hl. unfold line_key, indexOf. rewrite (colon_missing line 0 Hl).
  do 2 f_equal. unfold slice, clamp_index, without_last.
  replace (0 <? 0) with false by done.
  replace (-1 <? 0) with true by done.
  rewrite Z.min_l by lia. cbn [Z.to_nat sdrop]. f_equal. lia.
Qed.

(** X9. The names [parseHeaders] stores. A name has an entry exactly when
    it is not empty, is not [__proto__], and is what some line of the blob
    reads as ([line_key]). What a line reads as is in lower case, so every
    name that has an entry is; the empty name and [__proto__] never have
    one. A line reads as the text before its first colon, trimmed and in
    lower case; a line with no colon reads as the line without its last
    code unit, trimmed and in lower case. *)
Theorem parseHeaders_keys (blob k : string) :
  (is_Some (parseHeaders blob !! k) <->
   k <> EmptyString /\ k <> "__proto__" /\
   exists line, In line (split blob newline) /\ line_key line = k) /\
  (is_Some (parseHeaders blob !! k) -> toLowerCase k = k) /\
  parseHeaders blob !! EmptyString = None /\
  parseHeaders blob !! "__proto__" = None /\
  (forall a b, all_chars not_colon a = true ->
     line_key (a +:+ ":" +:+ b) = toLowerCase (trim a)) /\
  (forall line, all_chars not_colon line = true ->
     line_key line = toLowerCase (trim (without_last line))).
Proof.
  assert (Hproto : parseHeaders blob !! "__proto__" = None).
  { rewrite parseHeaders_lookup by done. apply update_proto. }
  assert (Hiff : is_Some (parseHeaders blob !! k) <->
    k <> EmptyString /\ k <> "__proto__" /\
    exists line, In line (split blob newline) /\ line_key line = k).
  { destruct (decide (k = EmptyString)) as [->|Hk].
    - rewrite parseHeaders_no_empty_key. split; [by intros [? ?]|by intros [? _]].
    - destruct (decide (k = "__proto__")) as [->|Hp].
      + rewrite Hproto. split; [by intros [? ?]|by intros (_ & ? & _)].
      + rewrite parseHeaders_entry_of by done. rewrite <- values_of_nonempty.
        unfold entry_of. rewrite (seqb_neq _ _ Hp).
        destruct (values_of k (split blob newline)) as [|v vs].
        * split; [by intros [? ?]|by intros (_ & _ & ?)].
        * split; [done|]. intros _. repeat case_match; eauto. }
  split; [exact Hiff|]. split.
  { intros (_ & _ & line & _ & <-)%Hiff. apply toLowerCase_idempotent. }
  split; [apply parseHeaders_no_empty_key|]. split; [exact Hproto|].
  split; [apply line_key_colon|apply line_key_no_colon].
Qed.

Lemma parseHeaders_keys_witness :
  toLowerCase "vary" = "vary" /\
  is_Some (parseHeaders Scenario.blob_inherited !! "vary") /\
  line_key "  Vary : Accept" = "vary" /\
  line_key "abc" = "ab".
Proof.
  destruct (parseHeaders_keys Scenario.blob_inherited "vary")
    as ((_ & Hin) & Hlow & _ & _ & Hcolon & Hnone).
  assert (Hs : is_Some (parseHeaders Scenario.blob_inherited !! "vary")).
  { apply Hin. split; [discriminate|]. split; [discriminate|].
    exists "Vary: Accept". split; [|reflexivity].
    vm_compute. right. right. right. by left. }
  split; [exact (Hlow Hs)|]. split; [exact Hs|]. split.
  - apply (Hcolon "  Vary " " Accept"). reflexivity.
  - apply (Hnone "abc"). reflexivity.
Defined.

(** ** Slots and handles *)

Section Slots.
Context {T : Type}.
Implicit Types (m : list (option (Client.handler T))).

Lemma registered_nulls n :
  Client.registered (replicate n (@None (Client.handler T))) = [].
Proof. induction n as [|n IH]; [done|exact IH]. Qed.

Lemma eject_inside m (id : nat) :
  (id < length m)%nat -> Client.eject m id = <[id := None]> m.
Proof.
  intros H. unfold Client.eject.
  by destruct (Nat.ltb_spec id (length m)); [|lia].
Qed.

Lemma eject_outside m (id : nat) :
  (length m <= id)%nat ->
  Client.eject m id = m ++ replicate (id - length m) None ++ [None].
Proof.
  intros H. unfold Client.eject.
  by destruct (Nat.ltb_spec id (length m)); [lia|].
Qed.

Lemma eject_lookup_self m (id : nat) : Client.eject m id !! id = Some None.
Proof.
  destruct (Nat.lt_ge_cases id (length m)) as [Hlt|Hge].
  - rewrite eject_inside by done. by apply list_lookup_insert_eq.
  - rewrite eject_outside by done.
    rewrite lookup_app_r by lia.
    rewrite lookup_app_r by (rewrite length_replicate; lia).
    rewrite length_replicate.
    by replace (id - length m - (id - length m))%nat with 0%nat by lia.
Qed.

Lemma eject_length m (id : nat) :
  length (Client.eject m id) = Nat.max (length m) (S id).
Proof.
  destruct (Nat.lt_ge_cases id (length m)) as [Hlt|Hge].
  - rewrite eject_inside by done. rewrite length_insert. lia.
  - rewrite eject_outside by done.
    rewrite !length_app, length_replicate. simpl. lia.
Qed.

Lemma eject_registered m (id : nat) :
  Client.registered (Client.eject m id)
  = Client.registered (take id m ++ drop (S id) m).
Proof.
  destruct (Nat.lt_ge_cases id (length m)) as [Hlt|Hge].
  - rewrite eject_inside, insert_take_drop by done. by rewrite !registered_app.
  - rewrite eject_outside, take_ge, drop_ge by lia.
    by rewrite !registered_app, registered_nulls.
Qed.

(** X10. [eject], for any array and any index: the slot of the index
    holds [null] afterwards; the array has its old length, or reaches just
    past the index when the index was beyond the end; the other slots are
    untouched; ejecting the same index again changes nothing; and a fold
    over the array settles to what the fold over the array without that
    slot settles to. *)
Theorem eject_slot m (id : nat) (init : settled T) :
  Client.eject m id !! id = Some None /\
  length (Client.eject m id) = Nat.max (length m) (S id) /\
  (forall j, j <> id -> (j < length m)%nat -> Client.eject m id !! j = m !! j) /\
  Client.eject (Client.eject m id) id = Client.eject m id /\
  fold_left Client.chain_step (Client.eject m id) init
  = fold_left Client.chain_step (take id m ++ drop (S id) m) init.
Proof.
  split; [apply eject_lookup_self|]. split; [apply eject_length|].
  split; [|split].
  - intros j Hj Hlt. destruct (Nat.lt_ge_cases id (length m)) as [Hin|Hout].
    + rewrite eject_inside by done. by apply list_lookup_insert_ne.
    + rewrite eject_outside by done. by rewrite lookup_app_l.
  - rewrite (eject_inside (Client.eject m id)) by (rewrite eject_length; lia).
    apply list_insert_id, eject_lookup_self.
  - by rewrite !fold_registered, eject_registered.
Qed.

(** X11. [use] after [eject]: the new handle is the length of the array,
    never the index of an ejected slot, so an ejected slot stays [null];
    the handle leads to the new stage, and every slot the array had keeps
    what it held. *)
Theorem use_after_eject m (id : nat) (h : Client.handler T) :
  let m' := Client.eject m id in
  snd (Client.use m' h) = Nat.max (length m) (S id) /\
  fst (Client.use m' h) !! snd (Client.use m' h) = Some (Some h) /\
  fst (Client.use m' h) !! id = Some None /\
  (forall j, (j < length m')%nat -> fst (Client.use m' h) !! j = m' !! j).
Proof.
  intros m'. pose proof (eject_lookup_self m id) as Hid.
  pose proof (eject_length m id) as Hlen.
  fold m' in Hid, Hlen. rewrite use_app. cbn [fst snd].
  split; [done|].
  split; [by rewrite lookup_app_r, Nat.sub_diag by lia|].
  split.
  - rewrite lookup_app_l; [done|]. by apply lookup_lt_Some in Hid.
  - intros j Hj. by rewrite lookup_app_l.
Qed.

End Slots.

Lemma eject_slot_witness :
  Client.eject [Some Scenario.stageA; Some Scenario.stageB] 3 !! 0%nat
  = [Some Scenario.stageA; Some Scenario.stageB] !! 0%nat.
Proof.
  destruct (eject_slot [Some Scenario.stageA; Some Scenario.stageB] 3 (Fulfilled 0))
    as (_ & _ & Hkept & _).
  apply (Hkept 0%nat); simpl; lia.
Defined.

Lemma use_after_eject_witness :
  fst (Client.use (Client.eject [Some Scenario.stageA; Some Scenario.stageB] 0)
         Scenario.stageC) !! 1%nat
  = Client.eject [Some Scenario.stageA; Some Scenario.stageB] 0 !! 1%nat.
Proof.
  destruct (use_after_eject [Some Scenario.stageA; Some Scenario.stageB] 0
              Scenario.stageC) as (_ & _ & _ & Hkept).
  apply (Hkept 1%nat). simpl. lia.
Defined.

(** ** Rejections on the way *)

Lemma rethrowing_chain {T : Type}
    (hs : list (option (Client.handler T))) (e : error) :
  Forall rethrows hs ->
  fold_left Client.chain_step hs (Rejected e) = Rejected e.
Proof.
  induction 1 as [|h hs Hh _ IH]; [done|]. simpl.
  destruct h as [h|]; simpl; [|exact IH].
  unfold Client.then_handler. simpl. by rewrite Hh.
Qed.

(** X12. A chain in which every stage's [onRejected] throws what it is
    given hands a rejection through unchanged: no [onFulfilled] runs and
    the fold rejects with the same error. *)
Theorem rejection_passes_rethrowing_chain {T : Type}
    (hs : list (option (Client.handler T))) (e : error) :
  Forall rethrows hs ->
  fold_left Client.chain_step hs (Rejected e) = Rejected e.
Proof. apply rethrowing_chain. Qed.

Lemma rejection_passes_rethrowing_chain_witness :
  fold_left Client.chain_step
    [Some Scenario.stageA; None; Some Scenario.stageC] (Rejected Scenario.no_token)
  = Rejected Scenario.no_token.
Proof.
  apply (rejection_passes_rethrowing_chain
           [Some Scenario.stageA; None; Some Scenario.stageC] Scenario.no_token).
  repeat constructor.
Defined.

Section RequestPath.
Variable JSON_parse : string -> completion value.

(** X13. When a request stage registered by the caller leaves the chain
    rejected, the implicit last stage answers it with its empty
    [onRejected]: the chain fulfils with [undefined], [_request] is called
    with [undefined] and throws a [TypeError] before it touches the
    transport. The error of the stage is lost: the response chain is
    given the [TypeError], and rejects with it when its stages rethrow. *)
Theorem request_stage_error_is_masked (c : Client.Client)
    (cfg : Client.RequestConfig) (ev : Client.terminal) (e : error) :
  fold_left Client.chain_step (Client.request_interceptors c)
    (Fulfilled (Some (Client.merge_config c cfg))) = Rejected e ->
  Client.berforeRequest JSON_parse c (Client.merge_config c cfg) = Fulfilled None /\
  Client.calls (Client.request JSON_parse c cfg ev) = [] /\
  Client.outcome (Client.request JSON_parse c cfg ev)
    = Client.afterRequest c (Rejected Client.type_error) /\
  (Forall rethrows (Client.response_interceptors c) ->
   Client.outcome (Client.request JSON_parse c cfg ev) = Rejected Client.type_error).
Proof.
  intros H.
  assert (Hb : Client.berforeRequest JSON_parse c (Client.merge_config c cfg)
               = Fulfilled None).
  { by rewrite berforeRequest_last, H. }
  split; [exact Hb|]. unfold Client.request. rewrite Hb.
  split; [done|]. split; [done|].
  intros Hr. cbn [Client.outcome Client._request]. unfold Client.afterRequest.
  by apply rethrowing_chain.
Qed.

(** ** The shape of an exchange *)

Lemma timeout_calls_only (o : option Z) :
  forallb is_timeout_call
    match o with
    | Some t => if t =? 0 then [] else [Client.SetTimeout t]
    | None => []
    end = true.
Proof. destruct o as [t|]; [destruct (t =? 0)|]; done. Qed.

Lemma header_calls_only body (hs : headers_t) :
  forallb is_setting_call
    (concat (map fst (map (Client.header_calls body) hs))) = true.
Proof.
  induction hs as [|[k v] hs IH]; [done|].
  simpl. rewrite forallb_app, IH, andb_true_r.
  destruct (is_undefined body && _); [done|].
  by induction (match v with VArr xs => xs | _ => [v] end).
Qed.

Lemma verb_is_known (m : option Client.Method) :
  In (toUpperCase (match m with
                   | Some m => Client.method_string m
                   | None => "get"
                   end)) verbs.
Proof. destruct m as [[]|]; cbn; tauto. Qed.

Lemma calls_assoc {A} (pre : list A) (o : A) (hs rt : list A) (s : A) :
  pre ++ [o] ++ hs ++ rt ++ [s] = pre ++ o :: (hs ++ rt) ++ [s].
Proof. by rewrite <- app_assoc. Qed.

Lemma transport_calls_shape (mergeConfig : option Client.RequestConfig)
    (ev : Client.terminal) :
  let cs := Client.calls (Client._request mergeConfig ev) in
  (opened cs = false /\ forallb is_timeout_call cs = true) \/
  (exists pre verb url mid body,
     cs = pre ++ Client.Open verb url true :: mid ++ [Client.Send body] /\
     forallb is_timeout_call pre = true /\
     forallb is_setting_call mid = true /\
     In verb verbs /\ is_undefined body = false).
Proof.
  destruct mergeConfig as [cfg|]; [|by left].
  unfold Client._request. case_match; cbn [Client.calls].
  - left. split; [apply opened_timeout|apply timeout_calls_only].
  - right. eexists _, _, _, (_ ++ _), _. split.
    { apply calls_assoc. }
    split; [apply timeout_calls_only|].
    split; [rewrite forallb_app, header_calls_only, andb_true_l;
            by destruct (negb (seqb _ EmptyString) && negb (seqb _ "json"))|].
    split; [apply verb_is_known|].
    destruct (payload_truthy (Client.data cfg)) eqn:E; [|done].
    by destruct (Client.data cfg) as [[]|].
Qed.

(** X14. What a call of [request] does to the transport, whatever the
    client, its interceptors, the config and the answer. Either the
    transport is never opened, and at most its timeout was set; or the
    calls are: the timeout if any, one [open] with one of the seven verbs
    in upper case and the asynchronous flag, then header and response-type
    settings only, then one [send] as the last call, with a body that is
    not [undefined]. There is never a second [open] or [send], never a
    [send] without an [open], and never a lower-case verb. *)
Theorem request_shape (c : Client.Client) (cfg : Client.RequestConfig)
    (ev : Client.terminal) :
  let cs := Client.calls (Client.request JSON_parse c cfg ev) in
  (opened cs = false /\ forallb is_timeout_call cs = true) \/
  (exists pre verb url mid body,
     cs = pre ++ Client.Open verb url true :: mid ++ [Client.Send body] /\
     forallb is_timeout_call pre = true /\
     forallb is_setting_call mid = true /\
     In verb verbs /\ is_undefined body = false).
Proof.
  unfold Client.request.
  destruct (Client.berforeRequest JSON_parse c (Client.merge_config c cfg))
    as [mergeConfig|e]; cbn [Client.calls]; [|by left].
  apply transport_calls_shape.
Qed.

(** ** The protocol gate on the path through request *)

Lemma gate_closed (cfg : Client.RequestConfig) (ev : Client.terminal) :
  parseProtocol (full_path cfg) <> EmptyString ->
  ~ In (parseProtocol (full_path cfg)) ["http"; "https"; "file"; "blob"] ->
  Client.outcome (Client._request (Some cfg) ev) = Rejected protocol_error /\
  opened (Client.calls (Client._request (Some cfg) ev)) = false.
Proof.
  intros Hne Hin. unfold Client._request. fold (full_path cfg).
  rewrite (seqb_neq _ _ Hne).
  assert (existsb (seqb (parseProtocol (full_path cfg))) Client.supported_protocols
          = false) as ->.
  { apply not_true_is_false. by rewrite existsb_seqb. }
  simpl. split; [done|]. apply opened_timeout.
Qed.

Lemma beforeSend_keeps_target config result :
  Client.beforeSend_fulfilled JSON_parse (Some config) = Fulfilled result ->
  exists final, result = Some final /\
    Client.baseURL final = Client.baseURL config /\
    Client.url final = Client.url config.
Proof.
  unfold Client.beforeSend_fulfilled.
  destruct (Client.transformRequest _ _ _) as [[b h]|e]; [|discriminate].
  intros [= <-]. eexists. by split.
Qed.

(** X15. On a client without request stages of its own: when the full
    URL of the merged config carries a protocol other than http, https,
    file and blob, [request] never opens the transport. If the payload
    transformer throws, [request] rejects with what it threw; otherwise the
    response chain is given the protocol error. The implicit last request
    stage leaves the base URL and the URL as they are, so the gate judges
    the URL the caller gave. *)
Theorem request_gate (c : Client.Client) (cfg : Client.RequestConfig)
    (ev : Client.terminal) :
  let protocol := parseProtocol (full_path (Client.merge_config c cfg)) in
  let sent := Client.request JSON_parse c cfg ev in
  Client.request_interceptors c = [] ->
  protocol <> EmptyString -> ~ In protocol ["http"; "https"; "file"; "blob"] ->
  opened (Client.calls sent) = false /\
  (forall final,
     Client.berforeRequest JSON_parse c (Client.merge_config c cfg) = Fulfilled final ->
     Client.outcome sent = Client.afterRequest c (Rejected protocol_error)) /\
  (forall e,
     Client.berforeRequest JSON_parse c (Client.merge_config c cfg) = Rejected e ->
     Client.outcome sent = Rejected e).
Proof.
  intros protocol sent Hnone Hp Hin. subst sent. unfold Client.request.
  rewrite berforeRequest_last, Hnone. simpl fold_left.
  destruct (Client.beforeSend_fulfilled JSON_parse (Some (Client.merge_config c cfg)))
    as [result|e] eqn:E.
  - apply beforeSend_keeps_target in E as (final & -> & Hb & Hu).
    assert (Hfull : full_path final = full_path (Client.merge_config c cfg)).
    { unfold full_path. by rewrite Hb, Hu. }
    destruct (gate_closed final ev) as [Ho Hc]; [by rewrite Hfull..|].
    cbn [Client.calls Client.outcome]. rewrite Ho.
    split; [exact Hc|]. split; [done|]. intros e [=].
  - cbn [Client.calls Client.outcome]. split; [done|].
    split; [intros final [=]|]. by intros e' [= ->].
Qed.

(** ** When the payload transformer throws *)

End RequestPath.

Lemma request_stage_error_is_masked_witness :
  Client.calls
    (Client.request JsonLite.JSON_parse (Scenario.guarded_client JsonLite.JSON_parse)
       (Scenario.plain_get "/r") Scenario.ok_200) = [] /\
  Client.outcome
    (Client.request JsonLite.JSON_parse (Scenario.guarded_client JsonLite.JSON_parse)
       (Scenario.plain_get "/r") Scenario.ok_200) = Rejected Client.type_error.
Proof.
  destruct (request_stage_error_is_masked JsonLite.JSON_parse
              (Scenario.guarded_client JsonLite.JSON_parse)
              (Scenario.plain_get "/r") Scenario.ok_200 Scenario.no_token)
    as (_ & Hcalls & _ & Hout); [reflexivity|].
  split; [exact Hcalls|]. apply Hout.
  constructor; [|constructor]. by intros e.
Defined.

Lemma request_gate_witness :
  opened (Client.calls
    (Client.request JsonLite.JSON_parse
       (Client.constructor JsonLite.JSON_parse Scenario.h_options)
       (Scenario.plain_get "ftp://x/y") Scenario.ok_200)) = false.
Proof.
  destruct (request_gate JsonLite.JSON_parse
              (Client.constructor JsonLite.JSON_parse Scenario.h_options)
              (Scenario.plain_get "ftp://x/y") Scenario.ok_200) as (H & _).
  - reflexivity.
  - discriminate.
  - cbn. intros [H|[H|[H|[H|[]]]]]; discriminate H.
  - exact H.
Defined.


(** ** Merging headers *)

Lemma hget_hset_ne h k k' v : k <> k' -> hget (hset h k v) k' = hget h k'.
Proof.
  intros Hne. induction h as [|[x y] h IH]; simpl.
  - by rewrite (seqb_neq _ _ Hne).
  - destruct (seqb x k) eqn:E; simpl.
    + apply seqb_true in E. subst x. by rewrite (seqb_neq _ _ Hne).
    + by rewrite IH.
Qed.

Lemma hspread_lookup (a b : headers_t) k :
  NoDup (map fst b) ->
  hget (hspread a b) k = if has_key b k then hget b k else hget a k.
Proof.
  unfold hspread. revert a. induction b as [|[x y] b IH]; intros a Hnd; [done|].
  apply NoDup_cons in Hnd as [Hx Hnd]. simpl. rewrite IH by done.
  destruct (seqb x k) eqn:E; simpl.
  - apply seqb_true in E. subst x.
    assert (has_key b k = false) as ->.
    { apply not_true_is_false. intros H. apply Hx.
      apply existsb_exists in H as ([x' y'] & Hin & Heq). apply seqb_true in Heq.
      simpl in Heq. subst x'. apply list_elem_of_In, in_map_iff. by exists (k, y'). }
    apply hget_hset.
  - apply seqb_false in E. destruct (has_key b k); [done|]. by apply hget_hset_ne.
Qed.

(** X17. In the config [request] merges, a header the request names (its
    names being distinct, as the properties of an object are) has the
    value the request gives it, whatever the client's default is; a header
    the request does not name has the client's default value, and is
    absent when there is no default. *)
Theorem request_headers_win (c : Client.Client) (cfg : Client.RequestConfig)
    (k : string) :
  NoDup (map fst (header_object (Client.headers cfg))) ->
  hget (header_object (Client.headers (Client.merge_config c cfg))) k
  = if has_key (header_object (Client.headers cfg)) k
    then hget (header_object (Client.headers cfg)) k
    else hget (header_object (Client.ctor_headers (Client.defaultOptions c))) k.
Proof. intros H. by apply hspread_lookup. Qed.

Lemma request_headers_win_witness :
  hget (header_object (Client.headers
          (Client.merge_config
             (Client.constructor JsonLite.JSON_parse Scenario.h_options)
             Scenario.get_with_headers))) "Accept"
  = VStr "text/csv".
Proof.
  apply (request_headers_win
           (Client.constructor JsonLite.JSON_parse Scenario.h_options)
           Scenario.get_with_headers "Accept").
  apply NoDup_cons. split.
  { apply not_elem_of_cons. split; [done|apply not_elem_of_nil]. }
  apply NoDup_cons. split; [apply not_elem_of_nil|apply NoDup_nil_2].
Defined.

(** * Properties of src/src/api.ts *)

(** ** The verb and the placeholders of a path *)










(** ** Filling the placeholders *)


Lemma hdelete_absent (args : Api.arguments) key :
  Api.has_own args key = false -> hdelete args key = args.
Proof.
  induction args as [|[k v] args IH]; [done|]. unfold hdelete in *. simpl.
  destruct (seqb k key); simpl; [done|]. intros H. by rewrite IH.
Qed.

Lemma unused_cons m ms (args : Api.arguments) :
  unused (m :: ms) args = unused ms (hdelete args (key_of m)).
Proof.
  unfold unused, hdelete. induction args as [|[k v] args IH]; [done|].
  cbn [List.filter map existsb fst].
  destruct (seqb k (key_of m)); cbn [orb negb List.filter fst]; [exact IH|].
  destruct (negb _); [f_equal|]; exact IH.
Qed.









Lemma unused_nil (args : Api.arguments) : unused [] args = args.
Proof.
  unfold unused. induction args as [|kv args IH]; [done|].
  simpl. f_equal. exact IH.
Qed.

Lemma unused_none (ms : list string) (args : Api.arguments) :
  Forall (fun m => Api.has_own args (key_of m) = false) ms ->
  unused ms args = args.
Proof.
  induction ms as [|m ms IH]; intros H; [apply unused_nil|].
  inversion H as [|? ? Hm Hms]; subst.
  rewrite unused_cons, (hdelete_absent _ _ Hm). by apply IH.
Qed.







(** ** Placeholders and the URL *)













(** ** The client of createRequestClient *)

Section Created.
Variable JSON_parse : string -> completion value.

Lemma use_request_all hs (c : Client.Client) :
  let made := fold_left (fun c h => Api.use_request c (Api.request_stage h)) hs c in
  Client.defaultOptions made = Client.defaultOptions c /\
  Client.request_interceptors made
    = Client.request_interceptors c ++ map (fun h => Some (Api.request_stage h)) hs /\
  Client.response_interceptors made = Client.response_interceptors c.
Proof.
  revert c. induction hs as [|h hs IH]; intros c; simpl.
  - by rewrite app_nil_r.
  - destruct (IH (Api.use_request c (Api.request_stage h))) as (-> & -> & ->).
    simpl. by rewrite <- app_assoc.
Qed.

Lemma use_response_all hs (c : Client.Client) :
  let made := fold_left (fun c h => Api.use_response c (Api.response_stage h)) hs c in
  Client.defaultOptions made = Client.defaultOptions c /\
  Client.request_interceptors made = Client.request_interceptors c /\
  Client.response_interceptors made
    = Client.response_interceptors c ++ map (fun h => Some (Api.response_stage h)) hs.
Proof.
  revert c. induction hs as [|h hs IH]; intros c; simpl.
  - by rewrite app_nil_r.
  - destruct (IH (Api.use_response c (Api.response_stage h))) as (-> & -> & ->).
    simpl. by rewrite <- app_assoc.
Qed.

Lemma client_of_parts (requestConfig : Api.CreateRequestConfig) :
  let client := Api.client_of JSON_parse requestConfig in
  Client.defaultOptions client
    = {| Client.ctor_baseURL := Some (Api.cfg_baseURL requestConfig);
         Client.ctor_headers := Api.cfg_headers requestConfig;
         Client.ctor_timeout := Api.cfg_timeout requestConfig;
         Client.ctor_responseType := Api.cfg_responseType requestConfig |} /\
  Client.request_interceptors client
    = map (fun h => Some (Api.request_stage h)) (Api.requestHandlers requestConfig) /\
  Client.response_interceptors client
    = Some (Client.json_stage JSON_parse)
      :: map (fun h => Some (Api.response_stage h))
             (Api.responseHandlers requestConfig)
      ++ [Some Api.error_stage].
Proof.
  unfold Api.client_of.
  cbn [Api.use_response Client.defaultOptions Client.request_interceptors
       Client.response_interceptors].
  rewrite use_app. cbn [fst].
  destruct (use_response_all (Api.responseHandlers requestConfig)
              (fold_left (fun c h => Api.use_request c (Api.request_stage h))
                 (Api.requestHandlers requestConfig)
                 (Api.new_Client JSON_parse requestConfig))) as (-> & -> & ->).
  destruct (use_request_all (Api.requestHandlers requestConfig)
              (Api.new_Client JSON_parse requestConfig)) as (-> & -> & ->).
  done.
Qed.

Lemma created_stages_rethrow (requestConfig : Api.CreateRequestConfig) :
  Forall rethrows
    (Client.response_interceptors (Api.client_of JSON_parse requestConfig)).
Proof.
  destruct (client_of_parts requestConfig) as (_ & _ & ->).
  constructor; [by intros e|].
  apply Forall_app. split; [|by constructor].
  by induction (Api.responseHandlers requestConfig); constructor.
Qed.

(** X22. A client made by [createRequestClient] hands every failure to
    the caller as it is. If the request chain rejects, or if the transport
    does (a network error, a timeout, an abort, an unsupported protocol, or
    the [TypeError] of a config that is [undefined]), the call rejects with
    that same error, whatever the request and response handlers of the
    config are. *)
Theorem created_client_keeps_errors (requestConfig : Api.CreateRequestConfig)
    (cfg : Client.RequestConfig) (ev : Client.terminal) (e : error) :
  let client := Api.client_of JSON_parse requestConfig in
  Client.berforeRequest JSON_parse client (Client.merge_config client cfg)
    = Rejected e \/
  (exists mergeConfig,
     Client.berforeRequest JSON_parse client (Client.merge_config client cfg)
       = Fulfilled mergeConfig /\
     Client.outcome (Client._request mergeConfig ev) = Rejected e) ->
  Client.outcome (Client.request JSON_parse client cfg ev) = Rejected e.
Proof.
  intros client [H|(mergeConfig & H & Hout)]; unfold Client.request; rewrite H.
  - done.
  - cbn [Client.outcome]. rewrite Hout. unfold Client.afterRequest.
    apply rethrowing_chain, created_stages_rethrow.
Qed.

(** X23. The response chain of a client made by [createRequestClient]:
    a response goes through the JSON stage of the constructor first and
    then through the response handlers of the config in their order; the
    first of them that rejects ends the chain with its error, and the last
    stage hands on what it is given. *)
Theorem created_client_response_chain (requestConfig : Api.CreateRequestConfig)
    (response : option Client.ReqeustResponse) :
  Client.afterRequest (Api.client_of JSON_parse requestConfig) (Fulfilled response)
  = fold_left
      (fun promise responseHandler =>
         match promise with
         | Fulfilled r => responseHandler r
         | Rejected e => Rejected e
         end)
      (Api.responseHandlers requestConfig)
      (Client.parse_json_response JSON_parse response).
Proof.
  unfold Client.afterRequest.
  destruct (client_of_parts requestConfig) as (_ & _ & ->).
  cbn [fold_left Client.chain_step]. unfold Client.then_handler at 1.
  cbn [then_ Client.fulfilled Client.json_stage].
  generalize (Client.parse_json_response JSON_parse response).
  induction (Api.responseHandlers requestConfig) as [|h hs IH]; intros p.
  - by destruct p.
  - cbn [map app fold_left Client.chain_step]. rewrite <- IH.
    by destruct p.
Qed.
End Created.

Section CreatedCalls.
Variable JSON_parse : string -> completion value.

Lemma hget_absent (h : headers_t) k : has_key h k = false -> hget h k = VUndefined.
Proof.
  induction h as [|[x y] h IH]; [done|]. simpl.
  destruct (seqb x k); [done|]. exact IH.
Qed.

(** X24. The default [Accept] header of the class does not reach a client
    made by [createRequestClient] with no headers: in the config such a
    client merges, every header has the value the request gives it, and a
    header the request does not name is absent. The same options given to
    [new Client] keep the default [Accept] for a request that names
    none. *)
Theorem created_client_has_no_default_accept
    (requestConfig : Api.CreateRequestConfig) (cfg : Client.RequestConfig) :
  Api.cfg_headers requestConfig = None ->
  NoDup (map fst (header_object (Client.headers cfg))) ->
  (forall k,
     hget (header_object
             (Client.headers
                (Client.merge_config (Api.client_of JSON_parse requestConfig) cfg))) k
     = hget (header_object (Client.headers cfg)) k) /\
  (has_key (header_object (Client.headers cfg)) "Accept" = false ->
   hget (header_object
           (Client.headers
              (Client.merge_config
                 (Client.constructor JSON_parse
                    {| Client.ctor_baseURL := Some (Api.cfg_baseURL requestConfig);
                       Client.ctor_headers := Api.cfg_headers requestConfig;
                       Client.ctor_timeout := Api.cfg_timeout requestConfig;
                       Client.ctor_responseType := Api.cfg_responseType requestConfig |})
                 cfg))) "Accept"
   = VStr "application/json, text/plain, */*").
Proof.
  intros Hnone Hnd. unfold header_object in *. split.
  - intros k. unfold Client.merge_config. cbn [Client.headers].
    destruct (client_of_parts JSON_parse requestConfig) as (-> & _).
    cbn [Client.ctor_headers]. rewrite Hnone.
    rewrite hspread_lookup by done.
    destruct (has_key _ k) eqn:E; [done|]. symmetry. exact (hget_absent _ _ E).
  - intros Hreq. unfold Client.merge_config. cbn [Client.headers].
    rewrite hspread_lookup by done.
    match goal with
    | |- (if ?c then _ else _) = _ =>
        replace c with false by (symmetry; exact Hreq)
    end.
    by rewrite Hnone.
Qed.

(** ** An API call down to the transport *)






End CreatedCalls.

Lemma created_client_keeps_errors_witness :
  Client.outcome
    (Client.request JsonLite.JSON_parse
       (Api.client_of JsonLite.JSON_parse Scenario.created)
       (Scenario.plain_get "/r") Client.OnError)
  = Rejected (Error "Error" "Network request failed").
Proof.
  apply created_client_keeps_errors. right. eexists. split; reflexivity.
Defined.

Lemma created_client_has_no_default_accept_witness :
  hget (header_object
          (Client.headers
             (Client.merge_config
                (Api.client_of JsonLite.JSON_parse Scenario.created)
                (Scenario.plain_get "/r")))) "Accept"
  = VUndefined /\
  hget (header_object
          (Client.headers
             (Client.merge_config
                (Client.constructor JsonLite.JSON_parse
                   {| Client.ctor_baseURL := Some "http://h";
                      Client.ctor_headers := None;
                      Client.ctor_timeout := None;
                      Client.ctor_responseType := None |})
                (Scenario.plain_get "/r")))) "Accept"
  = VStr "application/json, text/plain, */*".
Proof.
  destruct (created_client_has_no_default_accept JsonLite.JSON_parse
              Scenario.created (Scenario.plain_get "/r") eq_refl (NoDup_nil_2))
    as [Ha Hb].
  split; [apply Ha|apply Hb; reflexivity].
Defined.


(** ** Failures of the transport *)



